(** * Cache-and-lock coordination of the user service (app/main.py, app/db.py)

    The two endpoint bodies [read_user] and [update_user] are embedded as
    computations in a small state-and-exception monad over a [World] that
    holds the user table, the shared cache, the shared lock names, a clock,
    the log of calls made to the three collaborators, and an oracle telling
    which Data Store call raises. *)

From stdpp Require Import gmap strings list fin_maps pretty.

Local Open Scope string_scope.
Local Open Scope Z_scope.

(** ** Data model (app/db.py) *)

(** [class User(SQLModel, table=True)]: [id: int | None], [name: str],
    [email: str]. *)
Record User : Type := mkUser {
  id : option Z;
  name : string;
  email : string;
}.

(** JSON bodies, as far as the handlers produce them. *)
#[warnings="-register-all"]
Inductive Json : Type :=
| JNull
| JNum (n : Z)
| JStr (s : string)
| JObj (fields : list (string * Json)).

(** [JSONResponse(content=..., status_code=...)]. *)
Record JSONResponse : Type := mkResponse {
  status_code : Z;
  content : Json;
}.

(** What a handler returns: [None], a [User], or a ready response. *)
Inductive PyVal : Type :=
| PyNone
| PyUser (u : User)
| PyResponse (r : JSONResponse).

(** Outcome of an awaited call: a value or a raised exception. *)
Inductive Res (A : Type) : Type :=
| Ret (a : A)
| Raise.
Arguments Ret {A} a.
Arguments Raise {A}.

(** Calls made to the collaborators, in the order they happen. *)
Inductive Event : Type :=
| EvLockAcquire (lname : string)
| EvLockBusy (lname : string)
| EvLockRelease (lname : string)
| EvCacheGet (key : string)
| EvCacheSet (key : string) (val : PyVal) (ttl : Z)
| EvCacheDelete (key : string)
| EvDbGet (uid : Z)
| EvDbCommit (uid : Z) (row : User)
| EvDbRefresh (uid : Z)
| EvDbInsert (uid : Z) (row : User).

Record World : Type := mkWorld {
  db : gmap Z User;                  (* the user table, by primary key *)
  cache : gmap string (PyVal * Z);   (* key -> (snapshot, absolute expiry) *)
  locks : gset string;               (* names of the locks currently held *)
  now : Z;                           (* clock, in seconds *)
  faults : list bool;                (* per Data Store call: does it raise? *)
  trace : list Event;                (* log of collaborator calls *)
}.

Definition set_db (f : gmap Z User → gmap Z User) (w : World) : World :=
  mkWorld (f (db w)) (cache w) (locks w) (now w) (faults w) (trace w).
Definition set_cache (f : gmap string (PyVal * Z) → gmap string (PyVal * Z))
    (w : World) : World :=
  mkWorld (db w) (f (cache w)) (locks w) (now w) (faults w) (trace w).
Definition set_locks (f : gset string → gset string) (w : World) : World :=
  mkWorld (db w) (cache w) (f (locks w)) (now w) (faults w) (trace w).
Definition set_now (t : Z) (w : World) : World :=
  mkWorld (db w) (cache w) (locks w) t (faults w) (trace w).
Definition set_faults (fs : list bool) (w : World) : World :=
  mkWorld (db w) (cache w) (locks w) (now w) fs (trace w).
Definition log (e : Event) (w : World) : World :=
  mkWorld (db w) (cache w) (locks w) (now w) (faults w) (trace w ++ [e]).

(** ** The monad of handlers: state passing with exceptions *)

Definition M (A : Type) : Type := World → Res A * World.

Global Instance M_ret : MRet M := λ A a w, (Ret a, w).
Global Instance M_bind : MBind M := λ A B k m w,
  match m w with
  | (Ret a, w') => k a w'
  | (Raise, w') => (Raise, w')
  end.
Definition raise {A} : M A := λ w, (Raise, w).
Definition gets {A} (f : World → A) : M A := λ w, (Ret (f w), w).
Definition modify (f : World → World) : M unit := λ w, (Ret (), f w).

(** [try: body finally: cleanup]; the cleanup runs on every exit of [body]. *)
Definition finally {A} (body : M A) (cleanup : M unit) : M A :=
  λ w, let '(r, w') := body w in
       match cleanup w' with
       | (Ret _, w'') => (r, w'')
       | (Raise, w'') => (Raise, w'')
       end.

(** ** Collaborators *)

(** *** Data Store (the [AsyncSession] of a request) *)

(** Every Data Store call consumes one entry of the oracle; an exhausted
    oracle means the store answers. *)
Definition db_call : M unit := λ w,
  (match faults w with
   | true :: _ => Raise
   | _ => Ret ()
   end, set_faults (tail (faults w)) w).

(** [await session.get(User, user_id)] *)
Definition session_get (user_id : Z) : M (option User) :=
  db_call;;
  modify (log (EvDbGet user_id));;
  gets (λ w, db w !! user_id).

(** [session.add(user); await session.commit()] for the loaded row [uid]. *)
Definition session_commit (uid : Z) (user : User) : M unit :=
  db_call;;
  modify (set_db (insert uid user));;
  modify (log (EvDbCommit uid user)).

(** [await session.refresh(user)]: reload the row from the table. *)
Definition session_refresh (uid : Z) : M User :=
  db_call;;
  modify (log (EvDbRefresh uid));;
  row ← gets (λ w, db w !! uid);
  match row with
  | Some row => mret row
  | None => raise
  end.

(** Primary key given by the table to a row added without one: 1 on an
    empty table, otherwise one more than the largest key in use. Keys are
    unbounded integers here, as the ids of the handlers are; what the table
    does once the largest key is the last 64-bit one is not modelled. *)
Definition largest_key (m : gmap Z User) : option Z :=
  map_fold (λ k _ acc, Some (from_option (Z.max k) k acc)) None m.

Definition fresh_id (m : gmap Z User) : Z :=
  match largest_key m with
  | Some top => top + 1
  | None => 1
  end.

(** [session.add(user); await session.commit()] for a new object: the row
    gets the key the object carries, or a fresh one; a duplicate key is
    refused. *)
Definition session_insert (user : User) : M Z :=
  db_call;;
  rows ← gets db;
  let uid := default (fresh_id rows) (id user) in
  match rows !! uid with
  | Some _ => raise
  | None =>
      let row := mkUser (Some uid) (name user) (email user) in
      modify (set_db (insert uid row));;
      modify (log (EvDbInsert uid row));;
      mret uid
  end.

(** *** Key-value cache with TTL *)

(** Modelled from the spec: the cache client behind [cached] is not part of
    the sources. [get] returns the stored value if present and not expired,
    otherwise absence. *)
Definition cache_live (w : World) (key : string) : option PyVal :=
  match cache w !! key with
  | Some (val, expiry) => if bool_decide (now w < expiry) then Some val else None
  | None => None
  end.

Definition cache_get (key : string) : M (option PyVal) :=
  modify (log (EvCacheGet key));;
  gets (λ w, cache_live w key).

(** Modelled from the spec: [set] stores the value with absolute expiry
    now + ttl and overwrites any entry of the key. *)
Definition cache_set (key : string) (val : PyVal) (ttl : Z) : M unit :=
  modify (λ w, set_cache (insert key (val, now w + ttl)) w);;
  modify (log (EvCacheSet key val ttl)).

(** Modelled from the spec: [invalidate] removes any entry of the key and
    does nothing when there is none. *)
Definition cache_delete (key : string) : M unit :=
  modify (set_cache (delete key));;
  modify (log (EvCacheDelete key)).

(** *** Fail-fast named lock *)

(** Modelled from the spec: the lock client behind [once] is not part of
    the sources. [try_acquire] never waits: a held name answers busy. *)
Definition lock_try_acquire (lname : string) : M bool :=
  held ← gets (λ w, bool_decide (lname ∈ locks w));
  if held : bool then
    modify (log (EvLockBusy lname));; mret false
  else
    modify (set_locks (λ ls, {[lname]} ∪ ls));;
    modify (log (EvLockAcquire lname));;
    mret true.

(** Modelled from the spec: [release] frees the name. *)
Definition lock_release (lname : string) : M unit :=
  modify (set_locks (λ ls, ls ∖ {[lname]}));;
  modify (log (EvLockRelease lname)).

(** ** The two decorators *)

(** Modelled from the spec: the decorator [cached(key, ttl)] of py_cachify
    is not part of the sources. Check the cache; on absence run the wrapped
    function; a "not found" result is returned without being cached, any
    other result is stored with the TTL and returned. *)
Definition cached (key : string) (ttl : Z) (func : M PyVal) : M PyVal :=
  hit ← cache_get key;
  match hit with
  | Some val => mret val
  | None =>
      res ← func;
      match res with
      | PyNone => mret PyNone
      | _ => cache_set key res ttl;; mret res
      end
  end.

(** Modelled from the spec: the decorator [once(key, return_on_locked)] of
    py_cachify is not part of the sources. Try the lock; when busy return
    [return_on_locked] at once; otherwise run the wrapped function and
    release the lock on every exit. *)
Definition once (lname : string) (return_on_locked : PyVal) (func : M PyVal)
    : M PyVal :=
  acquired ← lock_try_acquire lname;
  if acquired : bool then finally func (lock_release lname)
  else mret return_on_locked.

(** ** Endpoints (app/main.py) *)

(** ['read_user-{user_id}'] *)
Definition cache_key (user_id : Z) : string := "read_user-" +:+ pretty user_id.

(** ['update-user-{user_id}'] *)
Definition lock_key (user_id : Z) : string := "update-user-" +:+ pretty user_id.

Definition of_option (o : option User) : PyVal :=
  match o with
  | Some u => PyUser u
  | None => PyNone
  end.

(** [create_user]: add, commit, refresh, return the row. *)
Definition create_user (user : User) : M PyVal :=
  uid ← session_insert user;
  row ← session_refresh uid;
  mret (PyUser row).

(** The body of [read_user], under the decorator. *)
Definition read_user_body (user_id : Z) : M PyVal :=
  row ← session_get user_id;
  mret (of_option row).

(** [@cached('read_user-{user_id}', ttl=300)] *)
Definition read_user (user_id : Z) : M PyVal :=
  cached (cache_key user_id) 300 (read_user_body user_id).

(** [read_user.reset(user_id=user_id)] *)
Definition read_user_reset (user_id : Z) : M unit :=
  cache_delete (cache_key user_id).

(** [JSONResponse(content={'status': 'Update in progress'}, status_code=226)] *)
Definition update_in_progress : JSONResponse :=
  mkResponse 226 (JObj [("status", JStr "Update in progress")]).

(** The body of [update_user], under the decorator. *)
Definition update_user_body (user_id : Z) (new_user : User) : M PyVal :=
  user ← session_get user_id;
  match user with
  | None => mret PyNone
  | Some user =>
      let user := mkUser (id user) (name new_user) (email new_user) in
      session_commit user_id user;;
      user ← session_refresh user_id;
      read_user_reset user_id;;
      mret (PyUser user)
  end.

(** [@once('update-user-{user_id}', return_on_locked=JSONResponse(...))] *)
Definition update_user (user_id : Z) (new_user : User) : M PyVal :=
  once (lock_key user_id) (PyResponse update_in_progress)
       (update_user_body user_id new_user).

(** ** HTTP boundary *)

Definition user_json (u : User) : Json :=
  JObj [("id", from_option JNum JNull (id u));
        ("name", JStr (name u));
        ("email", JStr (email u))].

(** What the framework sends for a handler outcome on a route declared
    without a status code: a returned response goes out as it is, any other
    value is encoded as the JSON body of a 200, an exception becomes a 500. *)
Definition http_response (r : Res PyVal) : JSONResponse :=
  match r with
  | Ret (PyResponse resp) => resp
  | Ret (PyUser u) => mkResponse 200 (user_json u)
  | Ret PyNone => mkResponse 200 JNull
  | Raise => mkResponse 500 (JStr "Internal Server Error")
  end.

(** ** Worlds the service can be in *)

(** Time passing between two requests. *)
Definition tick (d : Z) (w : World) : World := set_now (now w + d) w.

Definition empty_world : World := mkWorld ∅ ∅ ∅ 0 [] [].

(** Worlds reached from the empty one by requests handled one at a time,
    with time passing and the Data Store failing at will in between. *)
Inductive reachable : World → Prop :=
| reach_empty : reachable empty_world
| reach_create w user : reachable w → reachable (create_user user w).2
| reach_read w user_id : reachable w → reachable (read_user user_id w).2
| reach_update w user_id new_user :
    reachable w → reachable (update_user user_id new_user w).2
| reach_tick w d : reachable w → 0 ≤ d → reachable (tick d w)
| reach_faults w fs : reachable w → reachable (set_faults fs w).

(** Every cache entry under a read key holds a user whose row exists. *)
Definition cache_sound (w : World) : Prop :=
  ∀ user_id val expiry,
    cache w !! cache_key user_id = Some (val, expiry) →
    (∃ row, val = PyUser row) ∧ is_Some (db w !! user_id).

(** Every row sits under its own primary key. *)
Definition db_keyed (w : World) : Prop :=
  ∀ k row, db w !! k = Some row → id row = Some k.

Definition service_inv (w : World) : Prop := cache_sound w ∧ db_keyed w.

(** The next [n] Data Store calls answer. *)
Definition store_up (n : nat) (w : World) : Prop :=
  Forall (λ b, b = false) (take n (faults w)).

(** The calls logged between [w] and a later world [w']. *)
Definition events_since (w w' : World) : list Event :=
  drop (length (trace w)) (trace w').

Definition is_db_event (e : Event) : bool :=
  match e with
  | EvDbGet _ | EvDbCommit _ _ | EvDbRefresh _ | EvDbInsert _ _ => true
  | _ => false
  end.

Definition is_cache_write (e : Event) : bool :=
  match e with
  | EvCacheSet _ _ _ => true
  | _ => false
  end.

(** ** Two updates in flight: the machine *)

(** An update between two awaits: each constructor names the call the task
    makes next. *)
Inductive Task : Type :=
| TStart (user_id : Z) (new_user : User)     (* try the lock *)
| TGet (user_id : Z) (new_user : User)       (* lock held: session.get *)
| TCommit (user_id : Z) (user : User)        (* fields assigned: commit *)
| TRefresh (user_id : Z)                     (* committed: refresh *)
| TReset (user_id : Z) (user : User)         (* reloaded: read_user.reset *)
| TRelease (user_id : Z) (r : Res PyVal)     (* body left: release the lock *)
| TDone (r : Res PyVal).                     (* answered *)

Definition busy : Res PyVal := Ret (PyResponse update_in_progress).

(** One await of [update_user]: the same calls as the handler, one at a
    time. *)
Definition task_step (t : Task) (w : World) : Task * World :=
  match t with
  | TStart user_id new_user =>
      match lock_try_acquire (lock_key user_id) w with
      | (Ret true, w') => (TGet user_id new_user, w')
      | (Ret false, w') => (TDone busy, w')
      | (Raise, w') => (TDone Raise, w')
      end
  | TGet user_id new_user =>
      match session_get user_id w with
      | (Ret (Some user), w') =>
          (TCommit user_id (mkUser (id user) (name new_user) (email new_user)), w')
      | (Ret None, w') => (TRelease user_id (Ret PyNone), w')
      | (Raise, w') => (TRelease user_id Raise, w')
      end
  | TCommit user_id user =>
      match session_commit user_id user w with
      | (Ret _, w') => (TRefresh user_id, w')
      | (Raise, w') => (TRelease user_id Raise, w')
      end
  | TRefresh user_id =>
      match session_refresh user_id w with
      | (Ret user, w') => (TReset user_id user, w')
      | (Raise, w') => (TRelease user_id Raise, w')
      end
  | TReset user_id user =>
      match read_user_reset user_id w with
      | (Ret _, w') => (TRelease user_id (Ret (PyUser user)), w')
      | (Raise, w') => (TRelease user_id Raise, w')
      end
  | TRelease user_id r =>
      match lock_release (lock_key user_id) w with
      | (Ret _, w') => (TDone r, w')
      | (Raise, w') => (TDone Raise, w')
      end
  | TDone r => (TDone r, w)
  end.

Fixpoint run_task (n : nat) (t : Task) (w : World) : Task * World :=
  match n with
  | O => (t, w)
  | S n => let '(t', w') := task_step t w in run_task n t' w'
  end.

(** Two tasks over one world; the schedule says which one makes its next
    call ([true]: the first). *)
Record Sys : Type := mkSys {
  world : World;
  task_a : Task;
  task_b : Task;
}.

Definition task (first : bool) (s : Sys) : Task :=
  if first then task_a s else task_b s.

Definition sys_step (first : bool) (s : Sys) : Sys :=
  let '(t, w) := task_step (task first s) (world s) in
  if first then mkSys w t (task_b s) else mkSys w (task_a s) t.

Definition run (sched : list bool) (s : Sys) : Sys :=
  foldl (λ s first, sys_step first s) s sched.

Definition start (w : World) (uid_a : Z) (a : User) (uid_b : Z) (b : User) : Sys :=
  mkSys w (TStart uid_a a) (TStart uid_b b).

(** The task is between acquiring the lock and releasing it. *)
Definition in_cs (t : Task) : bool :=
  match t with
  | TGet _ _ | TCommit _ _ | TRefresh _ | TReset _ _ | TRelease _ _ => true
  | TStart _ _ | TDone _ => false
  end.

Definition at_start (t : Task) : bool :=
  match t with
  | TStart _ _ => true
  | _ => false
  end.

(** The id whose lock the task holds. *)
Definition holds (t : Task) : option Z :=
  match t with
  | TGet i _ | TCommit i _ | TRefresh i | TReset i _ | TRelease i _ => Some i
  | TStart _ _ | TDone _ => None
  end.

(** The scheduled task tries the lock that the other task holds. *)
Definition contends (first : bool) (s : Sys) : bool :=
  match task first s with
  | TStart i _ => bool_decide (holds (task (negb first) s) = Some i)
  | _ => false
  end.

(** Somewhere along the schedule the two updates overlap in that way. *)
Fixpoint overlap (sched : list bool) (s : Sys) : bool :=
  match sched with
  | [] => false
  | first :: rest => contends first s || overlap rest (sys_step first s)
  end.

(** How many calls the task still has to make, at most. *)
Definition steps_left (t : Task) : nat :=
  match t with
  | TStart _ _ => 6
  | TGet _ _ => 5
  | TCommit _ _ => 4
  | TRefresh _ => 3
  | TReset _ _ => 2
  | TRelease _ _ => 1
  | TDone _ => 0
  end.

(** How often the schedule gives the turn to a task. *)
Fixpoint turns (first : bool) (sched : list bool) : nat :=
  match sched with
  | [] => 0
  | b :: rest => (if eqb b first then 1 else 0) + turns first rest
  end.

Definition mutated (row x : User) : User := mkUser (id row) (name x) (email x).

Definition ok (row x : User) : Res PyVal := Ret (PyUser (mutated row x)).

Definition is_busy (t : Task) : bool :=
  match t with
  | TDone (Ret (PyResponse _)) => true
  | _ => false
  end.

(** The task has not entered, or was turned away. *)
Definition quiet (t : Task) : bool := at_start t || is_busy t.

(** The task has committed its row. *)
Definition wrote (t : Task) : bool :=
  match t with
  | TRefresh _ | TReset _ _ | TRelease _ _ | TDone (Ret (PyUser _)) => true
  | _ => false
  end.

(** What a task updating [uid] with [x], of a row with the id of [row],
    can be doing. *)
Definition task_inv (uid : Z) (row x : User) (w : World) (t : Task) : Prop :=
  match t with
  | TStart i nu | TGet i nu => i = uid ∧ nu = x
  | TCommit i u | TReset i u => i = uid ∧ u = mutated row x
  | TRefresh i => i = uid ∧ db w !! uid = Some (mutated row x)
  | TRelease i r => i = uid ∧ r = ok row x
  | TDone r => r = ok row x ∨ r = busy
  end.

(** The invariant of two updates in flight, [c] telling whether they have
    contended so far. *)
Record Inv (uid_a uid_b : Z) (a b row_a row_b : User) (c : bool) (s : Sys)
    : Prop := mkInv {
  inv_faults : faults (world s) = [];
  inv_a : task_inv uid_a row_a a (world s) (task_a s);
  inv_b : task_inv uid_b row_b b (world s) (task_b s);
  inv_row_a : ∃ r, db (world s) !! uid_a = Some r ∧ id r = id row_a;
  inv_row_b : ∃ r, db (world s) !! uid_b = Some r ∧ id r = id row_b;
  inv_lock_a : lock_key uid_a ∈ locks (world s)
               ↔ in_cs (task_a s) ∨ (in_cs (task_b s) ∧ uid_b = uid_a);
  inv_lock_b : lock_key uid_b ∈ locks (world s)
               ↔ in_cs (task_b s) ∨ (in_cs (task_a s) ∧ uid_a = uid_b);
  inv_mutex : uid_a = uid_b → in_cs (task_a s) → in_cs (task_b s) → False;
  inv_c : c = is_busy (task_a s) || is_busy (task_b s);
  inv_busy_a : is_busy (task_a s) → uid_a = uid_b ∧ quiet (task_b s) = false;
  inv_busy_b : is_busy (task_b s) → uid_a = uid_b ∧ quiet (task_a s) = false;
  inv_last_a : wrote (task_a s) → uid_a ≠ uid_b ∨ quiet (task_b s) →
               db (world s) !! uid_a = Some (mutated row_a a);
  inv_last_b : wrote (task_b s) → uid_a ≠ uid_b ∨ quiet (task_a s) →
               db (world s) !! uid_b = Some (mutated row_b b);
}.

(** ** Further worlds and the reader machine *)

(** Every cache entry under a read key holds the row the table has. *)
Definition coherent (w : World) : Prop :=
  ∀ user_id val expiry,
    cache w !! cache_key user_id = Some (val, expiry) →
    ∃ row, val = PyUser row ∧ db w !! user_id = Some row.

(** Worlds reached from the empty one by requests handled one at a time
    while the Data Store answers every call. *)
Inductive reachable_up : World → Prop :=
| up_empty : reachable_up empty_world
| up_create w user : reachable_up w → reachable_up (create_user user w).2
| up_read w user_id : reachable_up w → reachable_up (read_user user_id w).2
| up_update w user_id new_user :
    reachable_up w → reachable_up (update_user user_id new_user w).2
| up_tick w d : reachable_up w → 0 ≤ d → reachable_up (tick d w).

(** A read between two awaits. Modelled from the spec: the three calls of
    the [cached] wrapper (cache lookup, wrapped function, cache store) are
    separate awaits. *)
Inductive Reader : Type :=
| RStart (user_id : Z)                 (* look the key up *)
| RLoad (user_id : Z)                  (* miss: run the body *)
| RStore (user_id : Z) (res : PyVal)   (* loaded: store the result *)
| RDone (r : Res PyVal).               (* answered *)

Definition reader_step (t : Reader) (w : World) : Reader * World :=
  match t with
  | RStart user_id =>
      match cache_get (cache_key user_id) w with
      | (Ret (Some val), w') => (RDone (Ret val), w')
      | (Ret None, w') => (RLoad user_id, w')
      | (Raise, w') => (RDone Raise, w')
      end
  | RLoad user_id =>
      match read_user_body user_id w with
      | (Ret PyNone, w') => (RDone (Ret PyNone), w')
      | (Ret res, w') => (RStore user_id res, w')
      | (Raise, w') => (RDone Raise, w')
      end
  | RStore user_id res =>
      match cache_set (cache_key user_id) res 300 w with
      | (Ret _, w') => (RDone (Ret res), w')
      | (Raise, w') => (RDone Raise, w')
      end
  | RDone r => (RDone r, w)
  end.

Fixpoint run_reader (n : nat) (t : Reader) (w : World) : Reader * World :=
  match n with
  | O => (t, w)
  | S n => let '(t', w') := reader_step t w in run_reader n t' w'
  end.

(** ** Proof automation *)

Ltac munfold :=
  unfold update_user, update_user_body, read_user, read_user_body, read_user_reset,
    create_user, once, cached, finally,
    session_get, session_commit, session_refresh, session_insert,
    cache_get, cache_set, cache_delete, lock_try_acquire, lock_release,
    db_call, gets, modify, raise, mbind, M_bind, mret, M_ret.

(** Case analysis on the oracle, as deep as a handler makes calls. *)
Ltac oracle w :=
  unfold store_up in *;
  destruct (faults w) as [|[] [|[] [|[] [|[] ?]]]]; cbn in *;
  repeat match goal with
         | H : Forall _ (_ :: _) |- _ => inversion H; clear H; subst
         end;
  try discriminate.

(** The calls logged since a world, read off the grown trace. *)
Ltac trace_eq :=
  unfold events_since; cbn; rewrite <- ?app_assoc;
  rewrite drop_app_length; reflexivity.

(** Closing a field of the two-task invariant, by cases on the other task. *)
Ltac close tb :=
  first [ done | tauto | (by eauto)
        | (by destruct tb; cbn in *;
              intuition (try congruence; try discriminate; eauto)) ].

(** ** Basic facts *)

Lemma cache_key_inj : Inj (=) (=) cache_key.
Proof.
  intros i j H. unfold cache_key in H.
  apply (inj (String.app "read_user-")) in H. by apply (inj pretty) in H.
Qed.

Lemma lock_key_inj : Inj (=) (=) lock_key.
Proof.
  intros i j H. unfold lock_key in H.
  apply (inj (String.app "update-user-")) in H. by apply (inj pretty) in H.
Qed.

Local Set Warnings "-clear-no-such-hyp".

Lemma release_after_acquire (ls : gset string) (k : string) :
  k ∉ ls → ({[k]} ∪ ls) ∖ {[k]} = ls.
Proof. set_solver. Qed.

Lemma not_held_after_release (ls : gset string) (k : string) :
  k ∉ ({[k]} ∪ ls) ∖ {[k]}.
Proof. set_solver. Qed.

Lemma events_since_app w w' evs :
  trace w' = (trace w ++ evs)%list → events_since w w' = evs.
Proof. intros H. unfold events_since. rewrite H. by rewrite drop_app_length. Qed.

Lemma cache_sound_absent w user_id :
  cache_sound w → db w !! user_id = None → cache w !! cache_key user_id = None.
Proof.
  intros Hs Hd. destruct (cache w !! cache_key user_id) as [[val expiry]|] eqn:E; [|done].
  destruct (Hs _ _ _ E) as [_ [row Hrow]]. congruence.
Qed.

Lemma cache_live_absent w key : cache w !! key = None → cache_live w key = None.
Proof. unfold cache_live. by intros ->. Qed.

(** ** Reading through the cache *)

(** C4. When the cache holds a non-expired entry under the key of [user_id],
    [read_user] returns the cached value, the only collaborator call is the
    cache lookup, and neither the table nor the oracle of the Data Store is
    touched. *)
Theorem read_user_hit w user_id val expiry :
  cache w !! cache_key user_id = Some (val, expiry) →
  now w < expiry →
  (read_user user_id w).1 = Ret val
  ∧ events_since w (read_user user_id w).2 = [EvCacheGet (cache_key user_id)]
  ∧ Forall (λ e, is_db_event e = false) (events_since w (read_user user_id w).2)
  ∧ db (read_user user_id w).2 = db w
  ∧ faults (read_user user_id w).2 = faults w
  ∧ cache (read_user user_id w).2 = cache w.
Proof.
  intros Hc Ht.
  assert (Hl : cache_live (log (EvCacheGet (cache_key user_id)) w)
                 (cache_key user_id) = Some val).
  { unfold cache_live; cbn. rewrite Hc. by rewrite bool_decide_eq_true_2. }
  munfold; cbn. rewrite Hl; cbn.
  assert (He : events_since w (log (EvCacheGet (cache_key user_id)) w)
               = [EvCacheGet (cache_key user_id)]) by trace_eq.
  rewrite He. repeat split. by repeat constructor.
Qed.

Lemma read_user_hit_witness :
  let w := (read_user 1 (create_user (mkUser None "Ann" "a@x.com") empty_world).2).2 in
  (read_user 1 w).1 = Ret (PyUser (mkUser (Some 1) "Ann" "a@x.com"))
  ∧ db (read_user 1 w).2 = db w.
Proof.
  intros w.
  destruct (read_user_hit w 1 (PyUser (mkUser (Some 1) "Ann" "a@x.com")) 300)
    as (Hr & _ & _ & Hd & _); [reflexivity | reflexivity | ].
  split; [exact Hr | exact Hd].
Defined.

(** What a miss does, for an oracle whose next entry lets the store answer. *)
Lemma read_user_miss w user_id :
  cache_live w (cache_key user_id) = None →
  store_up 1 w →
  let w0 := set_faults (tail (faults w)) w in
  read_user user_id w =
    match db w !! user_id with
    | Some row =>
        (Ret (PyUser row),
         log (EvCacheSet (cache_key user_id) (PyUser row) 300)
           (set_cache (insert (cache_key user_id) (PyUser row, now w + 300))
              (log (EvDbGet user_id) (log (EvCacheGet (cache_key user_id)) w0))))
    | None =>
        (Ret PyNone, log (EvDbGet user_id) (log (EvCacheGet (cache_key user_id)) w0))
    end.
Proof.
  intros Hl Hup w0.
  assert (Hl' : cache_live (log (EvCacheGet (cache_key user_id)) w)
                  (cache_key user_id) = None) by exact Hl.
  munfold; cbn. rewrite Hl'; cbn.
  oracle w; by destruct (db w !! user_id).
Qed.

(** C10. A miss on a stored user writes the cache entry with a time-to-live
    of exactly 300 seconds: the call to the cache carries 300, the entry
    expires at now + 300, and it is served during the next 300 seconds and
    not after. *)
Theorem read_user_ttl_300 w user_id row :
  cache_live w (cache_key user_id) = None →
  db w !! user_id = Some row →
  store_up 1 w →
  (read_user user_id w).1 = Ret (PyUser row)
  ∧ cache (read_user user_id w).2
    = <[cache_key user_id := (PyUser row, now w + 300)]> (cache w)
  ∧ events_since w (read_user user_id w).2
    = [EvCacheGet (cache_key user_id); EvDbGet user_id;
       EvCacheSet (cache_key user_id) (PyUser row) 300]
  ∧ ∀ d, cache_live (tick d (read_user user_id w).2) (cache_key user_id)
         = if bool_decide (d < 300) then Some (PyUser row) else None.
Proof.
  intros Hl Hd Hup. rewrite (read_user_miss w user_id Hl Hup), Hd; cbn.
  repeat split; [trace_eq|].
  intros d. unfold cache_live; cbn. rewrite lookup_insert_eq.
  repeat case_bool_decide; (done || lia).
Qed.

Lemma read_user_ttl_300_witness :
  let w := (create_user (mkUser None "Ann" "a@x.com") empty_world).2 in
  cache (read_user 1 w).2
  = <[cache_key 1 := (PyUser (mkUser (Some 1) "Ann" "a@x.com"), now w + 300)]> (cache w).
Proof.
  intros w.
  destruct (read_user_ttl_300 w 1 (mkUser (Some 1) "Ann" "a@x.com"))
    as (_ & Hc & _); [reflexivity | reflexivity | | exact Hc].
  unfold store_up; cbn. constructor.
Defined.

(** Whatever happens, [read_user] writes the cache with no other
    time-to-live than 300. *)
Lemma read_user_only_ttl_300 w user_id :
  Forall (λ e, match e with EvCacheSet _ _ ttl => ttl = 300 | _ => True end)
         (events_since w (read_user user_id w).2).
Proof.
  munfold; cbn.
  destruct (cache_live _ _); cbn.
  - erewrite events_since_app; [|cbn; reflexivity]. by repeat constructor.
  - destruct (faults w) as [|[] ?]; cbn; try destruct (db w !! user_id); cbn;
      (erewrite events_since_app; [|cbn; rewrite <- ?app_assoc; reflexivity]);
      by repeat constructor.
Qed.

(** C1. When the table has no row for [user_id] (and the cache is sound, as
    it is in every reachable world), [read_user] returns [None] and leaves
    the cache as it was: no cache write is made. Creating the user right
    after and reading again returns the new row. *)
Theorem read_user_absent_not_cached w user_id user :
  cache_sound w →
  db w !! user_id = None →
  id user = Some user_id →
  store_up 4 w →
  let w1 := (read_user user_id w).2 in
  let w2 := (create_user user w1).2 in
  let row := mkUser (Some user_id) (name user) (email user) in
  (read_user user_id w).1 = Ret PyNone
  ∧ cache w1 = cache w
  ∧ Forall (λ e, is_cache_write e = false) (events_since w w1)
  ∧ (create_user user w1).1 = Ret (PyUser row)
  ∧ (read_user user_id w2).1 = Ret (PyUser row).
Proof.
  intros Hs Hd Hid Hup w1 w2 row.
  pose proof (cache_sound_absent w user_id Hs Hd) as Hc.
  assert (Hup1 : store_up 1 w).
  { unfold store_up in *. oracle w; by repeat constructor. }
  assert (E1 : read_user user_id w =
    (Ret PyNone, log (EvDbGet user_id) (log (EvCacheGet (cache_key user_id))
                   (set_faults (tail (faults w)) w)))).
  { rewrite (read_user_miss w user_id (cache_live_absent _ _ Hc) Hup1). by rewrite Hd. }
  subst w1 w2. rewrite E1; cbn.
  split; [done|]. split; [done|]. split.
  { erewrite events_since_app; [|cbn; rewrite <- ?app_assoc; reflexivity].
    by repeat constructor. }
  set (w1 := log _ _).
  assert (E2 : create_user user w1 =
    (Ret (PyUser row),
     log (EvDbRefresh user_id) (log (EvDbInsert user_id row)
       (set_db (insert user_id row)
          (set_faults (tail (tail (tail (faults w)))) w1))))).
  { subst w1. munfold; cbn. rewrite Hid; cbn. rewrite Hd.
    oracle w; by rewrite lookup_insert_eq. }
  rewrite E2; cbn. split; [done|].
  rewrite read_user_miss; cbn.
  - by rewrite lookup_insert_eq.
  - apply cache_live_absent. by subst w1.
  - oracle w; by repeat constructor.
Qed.

Lemma read_user_absent_not_cached_witness :
  (read_user 1 empty_world).1 = Ret PyNone
  ∧ cache (read_user 1 empty_world).2 = cache empty_world
  ∧ (read_user 1 (create_user (mkUser (Some 1) "Ann" "a@x.com")
                    (read_user 1 empty_world).2).2).1
    = Ret (PyUser (mkUser (Some 1) "Ann" "a@x.com")).
Proof.
  destruct (read_user_absent_not_cached empty_world 1 (mkUser (Some 1) "Ann" "a@x.com"))
    as (H1 & H2 & _ & _ & H3).
  - intros i val expiry H. cbn in H. by rewrite lookup_empty in H.
  - reflexivity.
  - reflexivity.
  - unfold store_up; cbn. constructor.
  - split; [exact H1 | split; [exact H2 | exact H3]].
Defined.

(** ** Updating under the lock *)

(** C3. When the lock of [user_id] is held, [update_user] answers at once
    with the busy response, status 226 and body
    [{"status": "Update in progress"}]; its only collaborator call is the
    refused lock attempt: no Data Store read or write, no cache call, and
    the lock stays with its holder. *)
Theorem update_user_busy w user_id new_user :
  lock_key user_id ∈ locks w →
  (update_user user_id new_user w).1 = Ret (PyResponse update_in_progress)
  ∧ http_response (update_user user_id new_user w).1
    = mkResponse 226 (JObj [("status", JStr "Update in progress")])
  ∧ events_since w (update_user user_id new_user w).2
    = [EvLockBusy (lock_key user_id)]
  ∧ db (update_user user_id new_user w).2 = db w
  ∧ cache (update_user user_id new_user w).2 = cache w
  ∧ faults (update_user user_id new_user w).2 = faults w
  ∧ locks (update_user user_id new_user w).2 = locks w.
Proof.
  intros Hheld. munfold. rewrite bool_decide_eq_true_2 by done. cbn.
  repeat split. trace_eq.
Qed.

Lemma update_user_busy_witness :
  let w := set_locks (λ _, {[lock_key 1]}) empty_world in
  http_response (update_user 1 (mkUser None "Ann" "a@x.com") w).1
  = mkResponse 226 (JObj [("status", JStr "Update in progress")]).
Proof.
  intros w.
  destruct (update_user_busy w 1 (mkUser None "Ann" "a@x.com")) as (_ & H & _);
    [|exact H].
  cbn. apply elem_of_singleton. reflexivity.
Defined.

(** C2. In a successful update (lock free, row present, the three Data
    Store calls answer) the effects come in this order. The calls are
    exactly: acquire the lock, load the row, commit the mutated row, reload
    it, delete the cache entry, release the lock. Until the commit the table
    is as before; once the commit is made the table holds the mutated row
    while the cache entry is still there and the lock is held; once the
    reset is made the cache entry is gone while the lock is still held; the
    release comes last, and leaves the mutated row in the table, no cache
    entry under the key and the locks as they were. The cache entry is
    removed after the commit and before the release. *)
Theorem update_user_effect_order w user_id new_user row :
  lock_key user_id ∉ locks w →
  db w !! user_id = Some row →
  store_up 3 w →
  let user := mkUser (id row) (name new_user) (email new_user) in
  let done := update_user user_id new_user w in
  let at_commit := run_task 2 (TStart user_id new_user) w in
  let committed := run_task 3 (TStart user_id new_user) w in
  let invalidated := run_task 5 (TStart user_id new_user) w in
  done.1 = Ret (PyUser user)
  ∧ events_since w done.2
    = [EvLockAcquire (lock_key user_id);
       EvDbGet user_id;
       EvDbCommit user_id user;
       EvDbRefresh user_id;
       EvCacheDelete (cache_key user_id);
       EvLockRelease (lock_key user_id)]
  ∧ (at_commit.1 = TCommit user_id user
     ∧ db at_commit.2 = db w
     ∧ cache at_commit.2 = cache w
     ∧ lock_key user_id ∈ locks at_commit.2)
  ∧ (committed.1 = TRefresh user_id
     ∧ db committed.2 = <[user_id := user]> (db w)
     ∧ cache committed.2 = cache w
     ∧ lock_key user_id ∈ locks committed.2)
  ∧ (invalidated.1 = TRelease user_id (Ret (PyUser user))
     ∧ db invalidated.2 = <[user_id := user]> (db w)
     ∧ cache invalidated.2 = delete (cache_key user_id) (cache w)
     ∧ lock_key user_id ∈ locks invalidated.2)
  ∧ run_task 6 (TStart user_id new_user) w = (TDone done.1, done.2)
  ∧ db done.2 = <[user_id := user]> (db w)
  ∧ cache done.2 = delete (cache_key user_id) (cache w)
  ∧ cache done.2 !! cache_key user_id = None
  ∧ locks done.2 = locks w.
Proof.
  intros Hfree Hrow Hup user done at_commit committed invalidated.
  subst done at_commit committed invalidated.
  assert (Hin : lock_key user_id ∈ ({[lock_key user_id]} ∪ locks w : gset string))
    by (apply elem_of_union_l, elem_of_singleton; reflexivity).
  unfold run_task, task_step. munfold. rewrite bool_decide_eq_false_2 by done.
  cbn. rewrite Hrow.
  oracle w; rewrite ?lookup_insert_eq; cbn; rewrite ?lookup_insert_eq; cbn.
  all: split; [done|]; split; [trace_eq|].
  all: repeat (split; [done|]).
  all: split; [apply lookup_delete_eq|]; by apply release_after_acquire.
Qed.

Lemma update_user_effect_order_witness :
  let w := (read_user 1 (create_user (mkUser None "Ann" "a@x.com") empty_world).2).2 in
  let user := mkUser (Some 1) "Ann2" "a@x.com" in
  events_since w (update_user 1 (mkUser None "Ann2" "a@x.com") w).2
  = [EvLockAcquire (lock_key 1);
     EvDbGet 1;
     EvDbCommit 1 user;
     EvDbRefresh 1;
     EvCacheDelete (cache_key 1);
     EvLockRelease (lock_key 1)]
  ∧ db (run_task 3 (TStart 1 (mkUser None "Ann2" "a@x.com")) w).2
    = <[1 := user]> (db w)
  ∧ cache (run_task 3 (TStart 1 (mkUser None "Ann2" "a@x.com")) w).2 = cache w
  ∧ cache (update_user 1 (mkUser None "Ann2" "a@x.com") w).2 !! cache_key 1 = None.
Proof.
  intros w user.
  destruct (update_user_effect_order w 1 (mkUser None "Ann2" "a@x.com")
              (mkUser (Some 1) "Ann" "a@x.com"))
    as (_ & H1 & _ & (_ & H2 & H3 & _) & _ & _ & _ & _ & H4 & _).
  - cbn. apply not_elem_of_empty.
  - reflexivity.
  - unfold store_up; cbn. constructor.
  - split; [exact H1|]. split; [exact H2|]. split; [exact H3 | exact H4].
Defined.

(** When the commit raises, the cache is not touched and the lock is still
    released. *)
Lemma update_user_commit_fails w user_id new_user row fs :
  lock_key user_id ∉ locks w →
  db w !! user_id = Some row →
  faults w = false :: true :: fs →
  (update_user user_id new_user w).1 = Raise
  ∧ events_since w (update_user user_id new_user w).2
    = [EvLockAcquire (lock_key user_id); EvDbGet user_id;
       EvLockRelease (lock_key user_id)]
  ∧ db (update_user user_id new_user w).2 = db w
  ∧ cache (update_user user_id new_user w).2 = cache w.
Proof.
  intros Hfree Hrow Hf. munfold. rewrite bool_decide_eq_false_2 by done.
  cbn. rewrite Hrow, Hf; cbn. repeat split. trace_eq.
Qed.

Lemma update_user_locks_restored w user_id new_user :
  lock_key user_id ∉ locks w →
  locks (update_user user_id new_user w).2 = locks w.
Proof.
  intros Hfree. munfold. rewrite bool_decide_eq_false_2 by done. cbn.
  destruct (faults w) as [|[] [|[] [|[] ?]]]; cbn;
    destruct (db w !! user_id); cbn; rewrite ?lookup_insert_eq; cbn;
    (by apply release_after_acquire).
Qed.

(** C5. An update that finds the lock free releases it on every exit: with
    the row absent ([None] returned midway), with the row updated, and when
    a Data Store call raises. Afterwards the held locks are those held
    before, the last call made is the release, and the lock can be acquired
    again, so a following update is not answered busy. *)
Theorem update_user_releases w user_id new_user :
  lock_key user_id ∉ locks w →
  let w' := (update_user user_id new_user w).2 in
  locks w' = locks w
  ∧ (lock_key user_id ∉ locks w')
  ∧ last (trace w') = Some (EvLockRelease (lock_key user_id))
  ∧ (lock_try_acquire (lock_key user_id) w').1 = Ret true
  ∧ (∀ next_user, (update_user user_id next_user w').1
                  ≠ Ret (PyResponse update_in_progress))
  ∧ (db w !! user_id = None → store_up 1 w →
     (update_user user_id new_user w).1 = Ret PyNone).
Proof.
  intros Hfree w'.
  assert (Hlocks : locks w' = locks w)
    by (by apply update_user_locks_restored).
  assert (Hfree' : lock_key user_id ∉ locks w') by (by rewrite Hlocks).
  split; [done|]. split; [done|]. split.
  { subst w'. munfold. rewrite bool_decide_eq_false_2 by done. cbn.
    destruct (faults w) as [|[] [|[] [|[] ?]]]; cbn;
      destruct (db w !! user_id); cbn; rewrite ?lookup_insert_eq; cbn;
      (by rewrite last_snoc). }
  split.
  { unfold lock_try_acquire, gets, modify, mbind, M_bind, mret, M_ret.
    by rewrite bool_decide_eq_false_2. }
  split.
  { intros next_user. generalize Hfree'. generalize w'. clear.
    intros w Hfree. munfold. rewrite bool_decide_eq_false_2 by done. cbn.
    destruct (faults w) as [|[] [|[] [|[] ?]]]; cbn;
      destruct (db w !! user_id); cbn; rewrite ?lookup_insert_eq; cbn; (done). }
  intros Habs Hup. munfold. rewrite bool_decide_eq_false_2 by done. cbn.
  rewrite Habs. by oracle w.
Qed.

Lemma update_user_releases_witness :
  (lock_key 7 ∉ locks (update_user 7 (mkUser None "Ann" "a@x.com") empty_world).2)
  ∧ (update_user 7 (mkUser None "Ann" "a@x.com") empty_world).1 = Ret PyNone.
Proof.
  destruct (update_user_releases empty_world 7 (mkUser None "Ann" "a@x.com"))
    as (_ & H1 & _ & _ & _ & H2).
  - cbn. apply not_elem_of_empty.
  - split; [exact H1|]. apply H2; [reflexivity|].
    unfold store_up; cbn. constructor.
Defined.

(** C6, as the code has it. For an id without a row, an update that gets
    the lock returns [None], which goes out as status 200 with the JSON
    body [null]; no 404 is produced. *)
Theorem update_user_absent_200_null w user_id new_user :
  lock_key user_id ∉ locks w →
  db w !! user_id = None →
  store_up 1 w →
  (update_user user_id new_user w).1 = Ret PyNone
  ∧ http_response (update_user user_id new_user w).1 = mkResponse 200 JNull
  ∧ db (update_user user_id new_user w).2 = db w.
Proof.
  intros Hfree Habs Hup. munfold. rewrite bool_decide_eq_false_2 by done.
  cbn. rewrite Habs. by oracle w.
Qed.

Lemma update_user_absent_200_null_witness :
  http_response (update_user 7 (mkUser None "Ann" "a@x.com") empty_world).1
  = mkResponse 200 JNull.
Proof.
  destruct (update_user_absent_200_null empty_world 7 (mkUser None "Ann" "a@x.com"))
    as (_ & H & _); [| | |exact H].
  - cbn. apply not_elem_of_empty.
  - reflexivity.
  - unfold store_up; cbn. constructor.
Defined.

(** C6, as the claim has it, fails: in the empty world the lock of id 7 is
    free and there is no row 7, the Data Store answers, yet the response to
    the update has status 200, not 404. *)
Lemma update_user_absent_not_404 :
  (lock_key 7 ∉ locks empty_world)
  ∧ db empty_world !! 7 = None
  ∧ store_up 1 empty_world
  ∧ status_code
      (http_response (update_user 7 (mkUser None "Ann" "a@x.com") empty_world).1)
    = 200
  ∧ status_code
      (http_response (update_user 7 (mkUser None "Ann" "a@x.com") empty_world).1)
    ≠ 404.
Proof.
  split; [cbn; apply not_elem_of_empty|].
  split; [reflexivity|].
  split; [unfold store_up; cbn; constructor|].
  split; [reflexivity|]. cbn. discriminate.
Qed.

(** C8. Whatever the outcome of an update, every row of the table keeps its
    id and stays under its key; rows of other ids are untouched, and the row
    of [user_id] either is untouched or has taken the name and email of the
    request. A successful update returns the row with the id it had. *)
Theorem update_user_keeps_id w user_id new_user k row :
  db w !! k = Some row →
  let w' := (update_user user_id new_user w).2 in
  (∃ row', db w' !! k = Some row'
     ∧ id row' = id row
     ∧ (k ≠ user_id → row' = row)
     ∧ (row' = row ∨ (name row' = name new_user ∧ email row' = email new_user)))
  ∧ (∀ u, (update_user user_id new_user w).1 = Ret (PyUser u) →
          k = user_id →
          u = mkUser (id row) (name new_user) (email new_user)
          ∧ db w' !! k = Some u).
Proof.
  intros Hrow w'. subst w'. munfold.
  destruct (bool_decide (lock_key user_id ∈ locks w)); cbn.
  { split; [exists row; by eauto|]. intros u Hu. discriminate. }
  destruct (decide (k = user_id)) as [->|Hne].
  - rewrite Hrow.
    destruct (faults w) as [|[] [|[] [|[] ?]]]; cbn;
      rewrite ?lookup_insert_eq; cbn.
    all: split; [|intros u Hu _; simplify_eq; cbn; try done].
    all: try (eexists;
              split; [first [exact Hrow | apply lookup_insert_eq | reflexivity]|];
              cbn; naive_solver).
    all: split; [done | by rewrite ?lookup_insert_eq].
  - destruct (faults w) as [|[] [|[] [|[] ?]]]; cbn;
      destruct (db w !! user_id); cbn; rewrite ?lookup_insert_eq; cbn;
      rewrite ?lookup_insert_ne by done;
      (split; [exists row; by eauto | intros ? _ Hk; by subst]).
Qed.

Lemma update_user_keeps_id_witness :
  let w := (create_user (mkUser None "Ann" "a@x.com") empty_world).2 in
  db w !! 1 = Some (mkUser (Some 1) "Ann" "a@x.com")
  ∧ db (update_user 1 (mkUser (Some 9) "Ann2" "b@x.com") w).2 !! 1
    = Some (mkUser (Some 1) "Ann2" "b@x.com").
Proof.
  intros w.
  destruct (update_user_keeps_id w 1 (mkUser (Some 9) "Ann2" "b@x.com") 1
              (mkUser (Some 1) "Ann" "a@x.com")) as [_ H]; [reflexivity|].
  split; [reflexivity|].
  destruct (H (mkUser (Some 1) "Ann2" "b@x.com") eq_refl eq_refl) as [_ H2].
  exact H2.
Defined.

(** C9. The id carried by the body of the request plays no part: two
    bodies with the same name and email give the same outcome and the same
    world, and a returned row has the id of the row stored under the path
    parameter, with the name and email of the body. *)
Theorem update_user_ignores_body_id w user_id new_user body_id :
  update_user user_id new_user w
  = update_user user_id (mkUser body_id (name new_user) (email new_user)) w
  ∧ ∀ u, (update_user user_id new_user w).1 = Ret (PyUser u) →
         ∃ row, db w !! user_id = Some row
                ∧ u = mkUser (id row) (name new_user) (email new_user).
Proof.
  split; [reflexivity|].
  munfold. destruct (bool_decide (lock_key user_id ∈ locks w)); cbn; [done|].
  destruct (faults w) as [|[] [|[] [|[] ?]]]; cbn;
    destruct (db w !! user_id) as [row|]; cbn; rewrite ?lookup_insert_eq; cbn;
    intros u Hu; simplify_eq; by eauto.
Qed.

Lemma update_user_ignores_body_id_witness :
  let w := (create_user (mkUser None "Ann" "a@x.com") empty_world).2 in
  update_user 1 (mkUser (Some 9) "Ann2" "b@x.com") w
  = update_user 1 (mkUser None "Ann2" "b@x.com") w
  ∧ ∃ row, db w !! 1 = Some row
           ∧ mkUser (Some 1) "Ann2" "b@x.com" = mkUser (id row) "Ann2" "b@x.com".
Proof.
  intros w.
  destruct (update_user_ignores_body_id w 1 (mkUser (Some 9) "Ann2" "b@x.com") None)
    as [H1 H2].
  split; [exact H1|].
  exact (H2 (mkUser (Some 1) "Ann2" "b@x.com") eq_refl).
Defined.

(** ** Invariants of the reachable worlds *)

Lemma cache_sound_weaken (w w' : World) :
  cache_sound w →
  (∀ i, is_Some (db w !! i) → is_Some (db w' !! i)) →
  (∀ i ve, cache w' !! cache_key i = Some ve → cache w !! cache_key i = Some ve) →
  cache_sound w'.
Proof.
  intros Hs Hdb Hc i val expiry H.
  destruct (Hs i val expiry (Hc _ _ H)) as [Hv Hi]. split; [done|]. by apply Hdb.
Qed.

Lemma is_Some_insert_mono (m : gmap Z User) (k i : Z) (u : User) :
  is_Some (m !! i) → is_Some (<[k:=u]> m !! i).
Proof.
  intros H. destruct (decide (k = i)) as [->|Hne].
  - rewrite lookup_insert_eq. by eexists.
  - by rewrite lookup_insert_ne.
Qed.

Lemma db_keyed_insert (w : World) (k : Z) (u : User) :
  db_keyed w → id u = Some k → db_keyed (set_db (insert k u) w).
Proof.
  intros Hk Hid j row. cbn. destruct (decide (k = j)) as [->|Hne].
  - rewrite lookup_insert_eq. by intros [= <-].
  - rewrite lookup_insert_ne by done. apply Hk.
Qed.

Lemma create_user_inv w user : service_inv w → service_inv (create_user user w).2.
Proof.
  intros [Hs Hk]. split.
  - apply (cache_sound_weaken w); [done| |].
    + intros i Hi. munfold; cbn.
      destruct (faults w) as [|[] [|[] ?]]; cbn;
        destruct (db w !! default (fresh_id (db w)) (id user)) eqn:E; cbn;
        rewrite ?lookup_insert_eq; cbn; try done;
        by apply is_Some_insert_mono.
    + intros i ve. munfold; cbn.
      destruct (faults w) as [|[] [|[] ?]]; cbn;
        destruct (db w !! default (fresh_id (db w)) (id user)) eqn:E; cbn;
        rewrite ?lookup_insert_eq; cbn; done.
  - intros k row. munfold; cbn.
    destruct (faults w) as [|[] [|[] ?]]; cbn;
      destruct (db w !! default (fresh_id (db w)) (id user)) eqn:E; cbn;
      rewrite ?lookup_insert_eq; cbn; try apply Hk;
      apply (db_keyed_insert w _ _ Hk); done.
Qed.

Lemma read_user_inv w user_id : service_inv w → service_inv (read_user user_id w).2.
Proof.
  intros [Hs Hk]. split.
  - intros i val expiry. munfold; cbn.
    destruct (cache_live _ _); cbn; [apply Hs|].
    destruct (faults w) as [|[] ?]; cbn; try apply Hs;
      destruct (db w !! user_id) as [row|] eqn:E; cbn; try apply Hs.
    all: destruct (decide (i = user_id)) as [->|Hne];
      [rewrite lookup_insert_eq; intros [= <- <-]; split; by eauto
      |rewrite lookup_insert_ne; [apply Hs|]; by intros ?%cache_key_inj].
  - intros k row. munfold; cbn.
    destruct (cache_live _ _); cbn; [apply Hk|].
    destruct (faults w) as [|[] ?]; cbn; try apply Hk;
      destruct (db w !! user_id); cbn; apply Hk.
Qed.

Lemma update_user_inv w user_id new_user :
  service_inv w → service_inv (update_user user_id new_user w).2.
Proof.
  intros [Hs Hk]. split.
  - apply (cache_sound_weaken w); [done| |].
    + intros i Hi. munfold.
      destruct (bool_decide (lock_key user_id ∈ locks w)); cbn; [done|].
      destruct (faults w) as [|[] [|[] [|[] ?]]]; cbn;
        destruct (db w !! user_id); cbn; rewrite ?lookup_insert_eq; cbn;
        try done; by apply is_Some_insert_mono.
    + intros i ve. munfold.
      destruct (bool_decide (lock_key user_id ∈ locks w)); cbn; [done|].
      destruct (faults w) as [|[] [|[] [|[] ?]]]; cbn;
        destruct (db w !! user_id); cbn; rewrite ?lookup_insert_eq; cbn;
        try done; by intros [_ ?]%lookup_delete_Some.
  - intros k row. munfold.
    destruct (bool_decide (lock_key user_id ∈ locks w)); cbn; [apply Hk|].
    destruct (faults w) as [|[] [|[] [|[] ?]]]; cbn;
      destruct (db w !! user_id) as [old|] eqn:E; cbn;
      rewrite ?lookup_insert_eq; cbn; try apply Hk;
      apply (db_keyed_insert w _ _ Hk); cbn; by apply Hk.
Qed.

(** Every reachable world has a sound cache and rows under their own keys:
    the premise of C1 holds wherever the service can be. *)
Lemma reachable_inv w : reachable w → service_inv w.
Proof.
  induction 1 as [|w user _ IH|w i _ IH|w i nu _ IH|w d _ IH _|w fs _ IH].
  - split; intros ? ?; cbn; rewrite ?lookup_empty; [intros ? ?|intros ?]; done.
  - by apply create_user_inv.
  - by apply read_user_inv.
  - by apply update_user_inv.
  - exact IH.
  - exact IH.
Qed.

(** Requests handled one at a time leave no lock behind. *)
Lemma reachable_no_lock w : reachable w → locks w = ∅.
Proof.
  induction 1 as [|w user _ IH|w i _ IH|w i nu _ IH|w d _ IH _|w fs _ IH];
    try done.
  - rewrite <- IH. munfold; cbn.
    destruct (faults w) as [|[] [|[] ?]]; cbn;
      destruct (db w !! default (fresh_id (db w)) (id user)); cbn;
      rewrite ?lookup_insert_eq; cbn; done.
  - rewrite <- IH. munfold; cbn. destruct (cache_live _ _); cbn; [done|].
    destruct (faults w) as [|[] ?]; cbn; try done; by destruct (db w !! i).
  - assert (Hfree : lock_key i ∉ locks w) by (rewrite IH; apply not_elem_of_empty).
    by rewrite update_user_locks_restored.
Qed.

(** ** Two updates in flight *)

(** The machine run to its end is the handler. *)
Lemma run_task_update_user w user_id new_user :
  run_task 6 (TStart user_id new_user) w
  = (TDone (update_user user_id new_user w).1, (update_user user_id new_user w).2).
Proof.
  unfold run_task, task_step. munfold.
  destruct (bool_decide (lock_key user_id ∈ locks w)); cbn; [done|].
  destruct (faults w) as [|[] [|[] [|[] ?]]]; cbn;
    destruct (db w !! user_id); cbn; rewrite ?lookup_insert_eq; cbn; done.
Qed.

Lemma task_inv_holds uid row x w t :
  task_inv uid row x w t → in_cs t → holds t = Some uid.
Proof. destruct t; cbn; intros H Hcs; try done; by destruct H as [-> _]. Qed.

Lemma inv_start w uid_a uid_b a b row_a row_b :
  lock_key uid_a ∉ locks w → lock_key uid_b ∉ locks w →
  db w !! uid_a = Some row_a → db w !! uid_b = Some row_b →
  faults w = [] →
  Inv uid_a uid_b a b row_a row_b false (start w uid_a a uid_b b).
Proof.
  intros Ha Hb Hra Hrb Hf. constructor; cbn; try done; try (by eauto).
  - split; [done|]. intros [[]|[[] _]].
  - split; [done|]. intros [[]|[[] _]].
Qed.

Lemma Inv_swap uid_a uid_b a b row_a row_b c w ta tb :
  Inv uid_a uid_b a b row_a row_b c (mkSys w ta tb) →
  Inv uid_b uid_a b a row_b row_a c (mkSys w tb ta).
Proof.
  intros [Hf Ha Hb Hra Hrb Hla Hlb Hmx Hc Hba Hbb Hwa Hwb]; cbn in *.
  constructor; cbn; try done.
  - intros E. symmetry in E. tauto.
  - by rewrite orb_comm.
  - intros H. destruct (Hbb H). split; done.
  - intros H. destruct (Hba H). split; done.
  - intros H [Hne|Hq]; apply Hwb; auto.
  - intros H [Hne|Hq]; apply Hwa; auto.
Qed.

Lemma step_start_busy w i nu :
  lock_key i ∈ locks w →
  task_step (TStart i nu) w = (TDone busy, log (EvLockBusy (lock_key i)) w).
Proof. intros H. unfold task_step; munfold. by rewrite bool_decide_eq_true_2. Qed.

Lemma step_start_free w i nu :
  lock_key i ∉ locks w →
  task_step (TStart i nu) w
  = (TGet i nu, log (EvLockAcquire (lock_key i))
                  (set_locks (λ ls, {[lock_key i]} ∪ ls) w)).
Proof. intros H. unfold task_step; munfold. by rewrite bool_decide_eq_false_2. Qed.

Lemma step_get w i nu row :
  faults w = [] → db w !! i = Some row →
  task_step (TGet i nu) w
  = (TCommit i (mutated row nu), log (EvDbGet i) (set_faults [] w)).
Proof. intros Hf Hr. unfold task_step; munfold. rewrite Hf; cbn. by rewrite Hr. Qed.

Lemma step_commit w i u :
  faults w = [] →
  task_step (TCommit i u) w
  = (TRefresh i, log (EvDbCommit i u) (set_db (insert i u) (set_faults [] w))).
Proof. intros Hf. unfold task_step; munfold. by rewrite Hf. Qed.

Lemma step_refresh w i row :
  faults w = [] → db w !! i = Some row →
  task_step (TRefresh i) w
  = (TReset i row, log (EvDbRefresh i) (set_faults [] w)).
Proof. intros Hf Hr. unfold task_step; munfold. rewrite Hf; cbn. by rewrite Hr. Qed.

Lemma step_reset w i u :
  task_step (TReset i u) w
  = (TRelease i (Ret (PyUser u)),
     log (EvCacheDelete (cache_key i)) (set_cache (delete (cache_key i)) w)).
Proof. reflexivity. Qed.

Lemma step_release w i r :
  task_step (TRelease i r) w
  = (TDone r, log (EvLockRelease (lock_key i))
                (set_locks (λ ls, ls ∖ {[lock_key i]}) w)).
Proof. reflexivity. Qed.

Lemma inv_step_a uid_a uid_b a b row_a row_b c w ta tb :
  (uid_a = uid_b → id row_a = id row_b) →
  Inv uid_a uid_b a b row_a row_b c (mkSys w ta tb) →
  Inv uid_a uid_b a b row_a row_b (c || contends true (mkSys w ta tb))
      (sys_step true (mkSys w ta tb)).
Proof.
  intros Hsame [Hf Ha Hb (ra & Hra & Hida) (rb & Hrb & Hidb) Hla Hlb Hmx Hc Hba Hbb Hwa Hwb].
  cbn in *. unfold sys_step, contends; cbn [task world task_a task_b negb].
  pose proof (lock_key_inj uid_a uid_b) as Hinj.
  pose proof (task_inv_holds _ _ _ _ _ Hb) as Hholds.
  destruct ta as [i nu|i nu|i u|i|i u|i r|r]; cbn in * |-.
  - destruct Ha as [-> ->].
    destruct (decide (lock_key uid_a ∈ locks w)) as [Hheld|Hfree].
    + rewrite step_start_busy by done.
      assert (Hcs : in_cs tb ∧ uid_b = uid_a) by (clear -Hla Hheld; tauto).
      destruct Hcs as [Hcs ->]. rewrite bool_decide_eq_true_2 by auto.
      rewrite orb_true_r.
      constructor; cbn; try close tb.
    + rewrite step_start_free by done.
      assert (Hncs : ¬ (in_cs tb ∧ uid_b = uid_a)) by (clear -Hla Hfree; tauto).
      rewrite bool_decide_eq_false_2, orb_false_r.
      2:{ intros Hh. apply Hncs. destruct tb; cbn in *; try done;
          destruct Hb as [-> _]; by simplify_eq. }
      constructor; cbn; try close tb.
      * rewrite elem_of_union, elem_of_singleton. tauto.
      * rewrite elem_of_union, elem_of_singleton. split.
        -- intros [E|Hin]; [right; split; [done|]; by apply Hinj|].
           clear -Hlb Hin. tauto.
        -- intros [Hcs|[_ ->]]; [right; clear -Hlb Hcs; tauto|by left].
  - destruct Ha as [-> ->]. rewrite (step_get w uid_a a ra) by done.
    rewrite orb_false_r.
    constructor; cbn; try close tb.
    + split; [done|]. unfold mutated. by rewrite Hida.
  - destruct Ha as [-> ->]. rewrite step_commit by done.
    rewrite orb_false_r.
    constructor; cbn; rewrite ?lookup_insert_eq; try close tb.
    + destruct tb; cbn in *; try done. destruct Hb as [-> Hb]. split; [done|].
      rewrite lookup_insert_ne; [done|]. intros ->. by apply Hmx.
    + destruct (decide (uid_a = uid_b)) as [->|Hne].
      * rewrite lookup_insert_eq. eexists; split; [done|]. cbn. by apply Hsame.
      * rewrite lookup_insert_ne by done. eauto.
    + intros Hw [Hne|[]]. rewrite lookup_insert_ne by done. apply Hwb; auto.
  - destruct Ha as [-> Hrow]. rewrite (step_refresh w uid_a (mutated row_a a)) by done.
    rewrite orb_false_r.
    constructor; cbn; try close tb.
  - destruct Ha as [-> ->]. rewrite step_reset.
    rewrite orb_false_r.
    constructor; cbn; try close tb.
  - destruct Ha as [-> ->]. rewrite step_release.
    rewrite orb_false_r.
    constructor; cbn; try close tb.
    + rewrite elem_of_difference, elem_of_singleton. split; [tauto|].
      intros [[]|[Hcs ->]]. by destruct Hmx.
    + rewrite elem_of_difference, elem_of_singleton. split.
      * intros [Hin Hne]. destruct (proj1 Hlb Hin) as [Hcs|[_ ->]]; [by left|done].
      * intros [Hcs|[[] _]]. split; [tauto|].
        intros E. apply Hmx; [|done|done]. by apply Hinj.
  - rewrite orb_false_r. cbn.
    constructor; cbn; try close tb.
Qed.

Lemma contends_swap w ta tb first :
  contends first (mkSys w ta tb) = contends (negb first) (mkSys w tb ta).
Proof. by destruct first. Qed.

Lemma inv_step uid_a uid_b a b row_a row_b c s first :
  (uid_a = uid_b → id row_a = id row_b) →
  Inv uid_a uid_b a b row_a row_b c s →
  Inv uid_a uid_b a b row_a row_b (c || contends first s) (sys_step first s).
Proof.
  intros Hsame HI. destruct s as [w ta tb]. destruct first.
  - by apply inv_step_a.
  - apply Inv_swap in HI.
    apply (inv_step_a uid_b uid_a b a row_b row_a c w tb ta) in HI;
      [|intros E; symmetry; by apply Hsame].
    rewrite (contends_swap w ta tb false).
    unfold sys_step in *; cbn in *.
    destruct (task_step tb w) as [t' w']. by apply Inv_swap.
Qed.

Lemma inv_run uid_a uid_b a b row_a row_b sched : ∀ c s,
  (uid_a = uid_b → id row_a = id row_b) →
  Inv uid_a uid_b a b row_a row_b c s →
  Inv uid_a uid_b a b row_a row_b (c || overlap sched s) (run sched s).
Proof.
  induction sched as [|first rest IH]; intros c s Hsame HI; cbn.
  - by rewrite orb_false_r.
  - rewrite orb_assoc. apply IH; [done|]. by apply inv_step.
Qed.

(** A task that tries a held lock is turned away, and nothing but the log
    changes. *)
Lemma contended_step_busy uid_a uid_b a b row_a row_b c s first :
  Inv uid_a uid_b a b row_a row_b c s →
  contends first s = true →
  task first (sys_step first s) = TDone busy
  ∧ task (negb first) (sys_step first s) = task (negb first) s
  ∧ db (world (sys_step first s)) = db (world s)
  ∧ cache (world (sys_step first s)) = cache (world s)
  ∧ locks (world (sys_step first s)) = locks (world s).
Proof.
  intros HI Hc. destruct s as [w ta tb].
  destruct HI as [_ Ha Hb _ _ Hla Hlb _ _ _ _ _ _]; cbn in *.
  unfold contends, sys_step in *; destruct first; cbn in *.
  - destruct ta as [i nu| | | | | |]; try done. destruct Ha as [-> ->].
    apply bool_decide_eq_true_1 in Hc.
    assert (Hcs : in_cs tb ∧ uid_b = uid_a).
    { destruct tb; cbn in *; try done; destruct Hb as [-> _]; by simplify_eq. }
    rewrite step_start_busy; [done|]. apply Hla. by right.
  - destruct tb as [i nu| | | | | |]; try done. destruct Hb as [-> ->].
    apply bool_decide_eq_true_1 in Hc.
    assert (Hcs : in_cs ta ∧ uid_a = uid_b).
    { destruct ta; cbn in *; try done; destruct Ha as [-> _]; by simplify_eq. }
    rewrite step_start_busy; [done|]. apply Hlb. by right.
Qed.

(** Every call brings a task closer to its answer, in any world. *)
Lemma task_step_progress t w :
  (steps_left (task_step t w).1 ≤ pred (steps_left t))%nat.
Proof.
  destruct t; unfold task_step; munfold; cbn; try lia.
  - destruct (bool_decide _); cbn; lia.
  - destruct (faults w) as [|[] ?]; cbn; try lia; destruct (db w !! _); cbn; lia.
  - destruct (faults w) as [|[] ?]; cbn; lia.
  - destruct (faults w) as [|[] ?]; cbn; try lia; destruct (db w !! _); cbn; lia.
Qed.

(** A task given its turns makes its calls, whatever the other one does. *)
Lemma run_progress sched : ∀ s,
  (steps_left (task_a (run sched s)) ≤ steps_left (task_a s) - turns true sched)%nat
  ∧ (steps_left (task_b (run sched s)) ≤ steps_left (task_b s) - turns false sched)%nat.
Proof.
  induction sched as [|first rest IH]; intros s; cbn [run foldl turns].
  - lia.
  - destruct (IH (sys_step first s)) as [Ha Hb]. unfold run in *.
    pose proof (task_step_progress (task first s) (world s)) as Hp.
    unfold sys_step in *.
    destruct (task_step (task first s) (world s)) as [t' w'].
    destruct first; cbn in *; lia.
Qed.

Lemma steps_left_done t : steps_left t = 0%nat → ∃ r, t = TDone r.
Proof. destruct t; cbn; try discriminate. by eexists. Qed.

(** Under a schedule that gives each task six turns both have answered. *)
Lemma run_answers sched s :
  (steps_left (task_a s) ≤ turns true sched)%nat →
  (steps_left (task_b s) ≤ turns false sched)%nat →
  ∃ ra rb, task_a (run sched s) = TDone ra ∧ task_b (run sched s) = TDone rb.
Proof.
  intros Ha Hb. destruct (run_progress sched s) as [Pa Pb].
  destruct (steps_left_done (task_a (run sched s))) as [ra Hra]; [lia|].
  destruct (steps_left_done (task_b (run sched s))) as [rb Hrb]; [lia|].
  by exists ra, rb.
Qed.

(** C7. Two updates in flight from a world where both rows exist, both
    locks are free and the Data Store answers, under any schedule of their
    calls. On the same id the two are never both between acquire and
    release. When they contend, that is when one tries the lock while the
    other holds it, the one that tries is answered busy and changes neither
    the table nor the cache, and once both have answered exactly one has
    succeeded, with its own fields in the returned and in the stored row,
    and the other was answered busy. Updates of different ids never contend
    and both succeed, each row holding the fields of its own update. Both
    do answer: under every schedule that gives each of them six turns both
    have answered, with these outcomes. *)
Theorem concurrent_updates w uid_a uid_b a b row_a row_b sched :
  lock_key uid_a ∉ locks w →
  lock_key uid_b ∉ locks w →
  db w !! uid_a = Some row_a →
  db w !! uid_b = Some row_b →
  faults w = [] →
  let s0 := start w uid_a a uid_b b in
  let s := run sched s0 in
  let outcome (ra rb : Res PyVal) : Prop :=
    if overlap sched s0
    then (ra = ok row_a a ∧ rb = busy
          ∧ db (world s) !! uid_a = Some (mutated row_a a))
         ∨ (ra = busy ∧ rb = ok row_b b
            ∧ db (world s) !! uid_b = Some (mutated row_b b))
    else ra = ok row_a a ∧ rb = ok row_b b
         ∧ (uid_a ≠ uid_b →
            db (world s) !! uid_a = Some (mutated row_a a)
            ∧ db (world s) !! uid_b = Some (mutated row_b b)) in
  (uid_a = uid_b → ¬ (in_cs (task_a s) ∧ in_cs (task_b s)))
  ∧ (∀ first, contends first s = true →
       uid_a = uid_b
       ∧ task first (sys_step first s) = TDone busy
       ∧ db (world (sys_step first s)) = db (world s)
       ∧ cache (world (sys_step first s)) = cache (world s))
  ∧ (uid_a ≠ uid_b → overlap sched s0 = false)
  ∧ (∀ ra rb, task_a s = TDone ra → task_b s = TDone rb → outcome ra rb)
  ∧ ((6 ≤ turns true sched)%nat → (6 ≤ turns false sched)%nat →
     ∃ ra rb, task_a s = TDone ra ∧ task_b s = TDone rb ∧ outcome ra rb).
Proof.
  intros Hfa Hfb Hra Hrb Hf s0 s outcome.
  assert (Hsame : uid_a = uid_b → id row_a = id row_b).
  { intros ->. congruence. }
  pose proof (inv_start w uid_a uid_b a b row_a row_b Hfa Hfb Hra Hrb Hf) as H0.
  pose proof (inv_run uid_a uid_b a b row_a row_b sched false s0 Hsame H0) as HI.
  rewrite orb_false_l in HI. fold s in HI.
  assert (Hno : uid_a ≠ uid_b → overlap sched s0 = false).
  { intros Hne. destruct (overlap sched s0) eqn:E; [|done].
    destruct HI as [_ _ _ _ _ _ _ _ Hc Hba Hbb _ _].
    symmetry in Hc. apply orb_prop in Hc as [Hb|Hb].
    - rewrite Hb in Hba. by destruct Hba.
    - rewrite Hb in Hbb. by destruct Hbb. }
  assert (Hout : ∀ ra rb, task_a s = TDone ra → task_b s = TDone rb →
                          outcome ra rb).
  { intros ra rb Ea Eb. subst outcome; cbn beta.
    destruct HI as [_ Ha Hb _ _ _ _ _ Hc Hba Hbb Hwa Hwb].
    rewrite Ea, Eb in *. cbn in *.
    destruct (overlap sched s0).
    + symmetry in Hc. apply orb_prop in Hc as [Hc|Hc].
      * right. rewrite Hc in Hba. destruct Hba as [_ Hq]; [done|].
        destruct Ha as [-> | ->]; [done|]. destruct Hb as [-> | ->]; [|done].
        split; [done|]. split; [done|]. apply Hwb; [done|]. by right.
      * left. rewrite Hc in Hbb. destruct Hbb as [_ Hq]; [done|].
        destruct Hb as [-> | ->]; [done|]. destruct Ha as [-> | ->]; [|done].
        split; [done|]. split; [done|]. apply Hwa; [done|]. by right.
    + symmetry in Hc. apply orb_false_elim in Hc as [Hca Hcb].
      destruct Ha as [-> | ->]; [|done]. destruct Hb as [-> | ->]; [|done].
      split; [done|]. split; [done|]. intros Hne.
      split; [apply Hwa|apply Hwb]; try done; by left. }
  split; [|split; [|split; [done|split; [done|]]]].
  - intros E [Ha Hb]. by eapply (inv_mutex _ _ _ _ _ _ _ _ HI).
  - intros first Hc.
    destruct (contended_step_busy _ _ _ _ _ _ _ _ first HI Hc)
      as (Ht & _ & Hd & Hca & _).
    split; [|done].
    pose proof (inv_step _ _ _ _ _ _ _ _ first Hsame HI) as HI'.
    rewrite Hc, orb_true_r in HI'.
    destruct (decide (uid_a = uid_b)) as [|Hne]; [done|].
    destruct HI' as [_ _ _ _ _ _ _ _ Hc' Hba Hbb _ _].
    symmetry in Hc'. apply orb_prop in Hc' as [Hb|Hb].
    + rewrite Hb in Hba. by destruct Hba.
    + rewrite Hb in Hbb. by destruct Hbb.
  - intros Ta Tb.
    destruct (run_answers sched s0) as (ra & rb & Ea & Eb); [done|done|].
    exists ra, rb. split; [done|]. split; [done|]. by apply Hout.
Qed.

Lemma concurrent_updates_witness :
  let w := (create_user (mkUser None "Ann" "a@x.com") empty_world).2 in
  let a := mkUser None "Ann2" "a@x.com" in
  let b := mkUser None "Ann3" "b@x.com" in
  let row := mkUser (Some 1) "Ann" "a@x.com" in
  let sched := [true; true; false; true; true; true; true;
                false; false; false; false; false] in
  let s := run sched (start w 1 a 1 b) in
  task_a s = TDone (ok row a)
  ∧ task_b s = TDone busy
  ∧ ((ok row a = ok row a ∧ busy = busy
      ∧ db (world s) !! 1 = Some (mutated row a))
     ∨ (ok row a = busy ∧ busy = ok row b
        ∧ db (world s) !! 1 = Some (mutated row b)))
  ∧ ∃ ra rb, task_a s = TDone ra ∧ task_b s = TDone rb.
Proof.
  intros w a b row sched s.
  assert (Hfree : lock_key 1 ∉ locks w) by (cbn; apply not_elem_of_empty).
  destruct (concurrent_updates w 1 1 a b row row sched
              Hfree Hfree eq_refl eq_refl eq_refl) as (_ & _ & _ & H & Hend).
  split; [reflexivity|]. split; [reflexivity|].
  split; [exact (H (ok row a) busy eq_refl eq_refl)|].
  destruct Hend as (ra & rb & Ea & Eb & _); [cbn; lia | cbn; lia |].
  exists ra, rb. split; [exact Ea | exact Eb].
Defined.

(** Without contention the two updates run one after the other and both
    succeed; the row ends with the fields of the later one. *)
Example updates_one_after_the_other :
  let w := (create_user (mkUser None "Ann" "a@x.com") empty_world).2 in
  let a := mkUser None "Ann2" "a@x.com" in
  let b := mkUser None "Ann3" "b@x.com" in
  let row := mkUser (Some 1) "Ann" "a@x.com" in
  let sched := (replicate 6 true ++ replicate 6 false)%list in
  let s := run sched (start w 1 a 1 b) in
  overlap sched (start w 1 a 1 b) = false
  ∧ task_a s = TDone (ok row a)
  ∧ task_b s = TDone (ok row b)
  ∧ db (world s) !! 1 = Some (mutated row b).
Proof. vm_compute. repeat split. Qed.

(** ** Further properties of the endpoints *)

Lemma largest_key_spec (m : gmap Z User) :
  match largest_key m with
  | Some top => ∀ k, is_Some (m !! k) → k ≤ top
  | None => m = ∅
  end.
Proof.
  unfold largest_key.
  apply (map_fold_weak_ind (λ (r : option Z) (m : gmap Z User),
           match r with
           | Some top => ∀ k, is_Some (m !! k) → k ≤ top
           | None => m = ∅
           end)); [done|].
  intros i x m' r Hi IH k Hk. destruct (decide (i = k)) as [->|Hne].
  - destruct r; cbn; lia.
  - rewrite lookup_insert_ne in Hk by done. destruct r as [top|]; cbn.
    + specialize (IH k Hk). lia.
    + subst m'. rewrite lookup_empty in Hk. by destruct Hk.
Qed.

Lemma fresh_id_fresh (m : gmap Z User) : m !! fresh_id m = None.
Proof.
  unfold fresh_id. pose proof (largest_key_spec m) as H.
  destruct (largest_key m) as [top|].
  - destruct (m !! (top + 1)) eqn:E; [|done].
    specialize (H (top + 1) (mk_is_Some _ _ E)). lia.
  - subst m. apply lookup_empty.
Qed.

Lemma store_up_S n w : store_up (S n) w → store_up n w.
Proof.
  unfold store_up. revert n. induction (faults w) as [|b fs IH]; intros n H.
  - by rewrite take_nil.
  - destruct n; [constructor|]. cbn in *. inversion H; subst.
    constructor; [done|]. by apply IH.
Qed.

(** X1. A user posted without an id gets a primary key that no row has yet;
    [create_user] returns the row with that id, the table gains exactly this
    row, and cache and locks are not touched. *)
Theorem create_user_assigns_fresh_id w user :
  id user = None →
  store_up 2 w →
  ∃ k, let row := mkUser (Some k) (name user) (email user) in
    db w !! k = None
    ∧ (create_user user w).1 = Ret (PyUser row)
    ∧ db (create_user user w).2 = <[k := row]> (db w)
    ∧ cache (create_user user w).2 = cache w
    ∧ locks (create_user user w).2 = locks w.
Proof.
  intros Hid Hup. exists (fresh_id (db w)).
  pose proof (fresh_id_fresh (db w)) as Hfresh.
  split; [done|]. munfold; cbn. rewrite Hid; cbn. rewrite Hfresh.
  oracle w; rewrite lookup_insert_eq; done.
Qed.

Lemma create_user_assigns_fresh_id_witness :
  ∃ k, db empty_world !! k = None
    ∧ (create_user (mkUser None "Ann" "a@x.com") empty_world).1
      = Ret (PyUser (mkUser (Some k) "Ann" "a@x.com")).
Proof.
  destruct (create_user_assigns_fresh_id empty_world (mkUser None "Ann" "a@x.com"))
    as (k & H1 & H2 & _); [reflexivity| |].
  - unfold store_up; cbn. constructor.
  - exists k. split; [exact H1 | exact H2].
Defined.

(** X2. A user posted with an id that is already taken is refused:
    [create_user] raises and table, cache and locks stay as they were. *)
Theorem create_user_duplicate_refused w user k :
  id user = Some k →
  is_Some (db w !! k) →
  (create_user user w).1 = Raise
  ∧ db (create_user user w).2 = db w
  ∧ cache (create_user user w).2 = cache w
  ∧ locks (create_user user w).2 = locks w.
Proof.
  intros Hid [row Hrow]. munfold; cbn. rewrite Hid; cbn. rewrite Hrow.
  by destruct (faults w) as [|[] ?].
Qed.

Lemma create_user_duplicate_refused_witness :
  let w := (create_user (mkUser None "Ann" "a@x.com") empty_world).2 in
  (create_user (mkUser (Some 1) "Bob" "b@x.com") w).1 = Raise
  ∧ db (create_user (mkUser (Some 1) "Bob" "b@x.com") w).2 = db w.
Proof.
  intros w.
  destruct (create_user_duplicate_refused w (mkUser (Some 1) "Bob" "b@x.com") 1)
    as (H1 & H2 & _); [reflexivity|by eexists|].
  split; [exact H1 | exact H2].
Defined.

(** X3. Round trip: whenever [create_user] returns a row, the row carries an
    id, and reading that id right after returns the same row. *)
Theorem create_then_read w user row :
  cache_sound w →
  (create_user user w).1 = Ret (PyUser row) →
  store_up 1 (create_user user w).2 →
  ∃ k, id row = Some k
    ∧ (read_user k (create_user user w).2).1 = Ret (PyUser row)
    ∧ db (read_user k (create_user user w).2).2 !! k = Some row.
Proof.
  intros Hs Hret Hup.
  set (k := default (fresh_id (db w)) (id user)).
  destruct (db w !! k) as [old|] eqn:Hk.
  { exfalso. revert Hret. munfold; cbn. fold k. rewrite Hk.
    by destruct (faults w) as [|[] ?]. }
  pose proof (cache_sound_absent w k Hs Hk) as Hc.
  assert (E : ∃ w', create_user user w = (Ret (PyUser row), w')
              ∧ row = mkUser (Some k) (name user) (email user)
              ∧ db w' = <[k := row]> (db w) ∧ cache w' = cache w).
  { revert Hret. munfold; cbn. fold k. rewrite Hk.
    destruct (faults w) as [|[] [|[] ?]]; cbn; rewrite ?lookup_insert_eq; cbn;
      intros [= <-]; eexists; done. }
  destruct E as (w' & E & Hrow & Hdb & Hcache). rewrite E in *; cbn [fst snd] in *.
  exists k. split; [by rewrite Hrow|].
  rewrite (read_user_miss w' k); [|apply cache_live_absent; by rewrite Hcache|done].
  rewrite Hdb, lookup_insert_eq; cbn. by rewrite Hdb, lookup_insert_eq.
Qed.

Lemma create_then_read_witness :
  ∃ k, Some 1 = Some k
    ∧ (read_user k (create_user (mkUser None "Ann" "a@x.com") empty_world).2).1
      = Ret (PyUser (mkUser (Some 1) "Ann" "a@x.com")).
Proof.
  destruct (create_then_read empty_world (mkUser None "Ann" "a@x.com")
              (mkUser (Some 1) "Ann" "a@x.com")) as (k & H1 & H2 & _).
  - intros i val expiry H. cbn in H. by rewrite lookup_empty in H.
  - reflexivity.
  - unfold store_up; cbn. constructor.
  - exists k. split; [exact H1 | exact H2].
Defined.

(** What a successful update leaves behind. *)
Lemma update_user_success w user_id new_user row :
  lock_key user_id ∉ locks w →
  db w !! user_id = Some row →
  store_up 3 w →
  let user := mkUser (id row) (name new_user) (email new_user) in
  let w' := (update_user user_id new_user w).2 in
  (update_user user_id new_user w).1 = Ret (PyUser user)
  ∧ db w' = <[user_id := user]> (db w)
  ∧ cache w' = delete (cache_key user_id) (cache w)
  ∧ locks w' = locks w
  ∧ now w' = now w
  ∧ faults w' = tail (tail (tail (faults w))).
Proof.
  intros Hfree Hrow Hup user w'. subst w'. munfold.
  rewrite bool_decide_eq_false_2 by done. cbn. rewrite Hrow.
  oracle w; rewrite lookup_insert_eq; cbn;
    (repeat split; by apply release_after_acquire).
Qed.

(** X4. After a successful update the next read returns the updated row,
    whatever the cache held before: the entry was reset, so the read goes to
    the table and caches the new row. *)
Theorem read_after_update w user_id new_user row :
  lock_key user_id ∉ locks w →
  db w !! user_id = Some row →
  store_up 4 w →
  let user := mkUser (id row) (name new_user) (email new_user) in
  let w' := (update_user user_id new_user w).2 in
  (read_user user_id w').1 = Ret (PyUser user)
  ∧ events_since w' (read_user user_id w').2
    = [EvCacheGet (cache_key user_id); EvDbGet user_id;
       EvCacheSet (cache_key user_id) (PyUser user) 300].
Proof.
  intros Hfree Hrow Hup user w'.
  destruct (update_user_success w user_id new_user row Hfree Hrow)
    as (_ & Hdb & Hc & _ & _ & Hf); [by apply store_up_S|].
  fold w' in Hdb, Hc, Hf.
  assert (Hmiss : cache_live w' (cache_key user_id) = None).
  { apply cache_live_absent. rewrite Hc. apply lookup_delete_eq. }
  assert (Hup' : store_up 1 w').
  { unfold store_up in *. rewrite Hf. oracle w; by repeat constructor. }
  rewrite (read_user_miss w' user_id Hmiss Hup'), Hdb, lookup_insert_eq; cbn.
  split; [done|]. trace_eq.
Qed.

Lemma read_after_update_witness :
  let w := (read_user 1 (create_user (mkUser None "Ann" "a@x.com") empty_world).2).2 in
  cache_live w (cache_key 1) = Some (PyUser (mkUser (Some 1) "Ann" "a@x.com"))
  ∧ (read_user 1 (update_user 1 (mkUser None "Ann2" "b@x.com") w).2).1
    = Ret (PyUser (mkUser (Some 1) "Ann2" "b@x.com")).
Proof.
  intros w. split; [reflexivity|].
  destruct (read_after_update w 1 (mkUser None "Ann2" "b@x.com")
              (mkUser (Some 1) "Ann" "a@x.com")) as [H _]; [| | |exact H].
  - cbn. apply not_elem_of_empty.
  - reflexivity.
  - unfold store_up; cbn. constructor.
Defined.

(** X5. Once a read has cached a row, reads during the next 300 seconds
    return that row from the cache alone: the only call is the cache lookup,
    whatever the table holds by then and even when the Data Store would
    raise. *)
Theorem read_user_served_from_cache_for_ttl w user_id row d fs rows :
  cache_live w (cache_key user_id) = None →
  db w !! user_id = Some row →
  store_up 1 w →
  d < 300 →
  let w1 := (read_user user_id w).2 in
  let w2 := set_faults fs (set_db (λ _, rows) (tick d w1)) in
  (read_user user_id w2).1 = Ret (PyUser row)
  ∧ events_since w2 (read_user user_id w2).2 = [EvCacheGet (cache_key user_id)]
  ∧ faults (read_user user_id w2).2 = fs
  ∧ db (read_user user_id w2).2 = rows.
Proof.
  intros Hl Hd Hup Hlt w1 w2. subst w1 w2.
  rewrite (read_user_miss w user_id Hl Hup), Hd. cbn [fst snd].
  set (w2 := set_faults fs _).
  assert (Hlive : cache_live (log (EvCacheGet (cache_key user_id)) w2)
                    (cache_key user_id) = Some (PyUser row)).
  { unfold cache_live; cbn. rewrite lookup_insert_eq.
    rewrite bool_decide_eq_true_2; [done|lia]. }
  assert (Hf : faults w2 = fs) by done.
  assert (Hrows : db w2 = rows) by done.
  clearbody w2.
  munfold; cbn. rewrite Hlive; cbn. split; [done|]. split; [trace_eq|done].
Qed.

Lemma read_user_served_from_cache_for_ttl_witness :
  let w := (create_user (mkUser None "Ann" "a@x.com") empty_world).2 in
  let w2 := set_faults [true] (set_db (λ _, ∅) (tick 299 (read_user 1 w).2)) in
  (read_user 1 w2).1 = Ret (PyUser (mkUser (Some 1) "Ann" "a@x.com")).
Proof.
  intros w w2.
  destruct (read_user_served_from_cache_for_ttl w 1 (mkUser (Some 1) "Ann" "a@x.com")
              299 [true] ∅) as [H _]; [reflexivity|reflexivity| |lia|exact H].
  unfold store_up; cbn. constructor.
Defined.

(** X6. Once 300 seconds have passed, a read goes back to the table, returns
    the row it holds now and caches it for another 300 seconds. *)
Theorem read_user_reloads_after_expiry w user_id row d rows row' :
  cache_live w (cache_key user_id) = None →
  db w !! user_id = Some row →
  store_up 2 w →
  300 ≤ d →
  rows !! user_id = Some row' →
  let w1 := (read_user user_id w).2 in
  let w2 := set_db (λ _, rows) (tick d w1) in
  (read_user user_id w2).1 = Ret (PyUser row')
  ∧ cache (read_user user_id w2).2 !! cache_key user_id
    = Some (PyUser row', now w + d + 300).
Proof.
  intros Hl Hd Hup Hge Hrows w1 w2. subst w1 w2.
  rewrite (read_user_miss w user_id Hl (store_up_S _ _ Hup)), Hd; cbn.
  set (w2 := set_db _ _).
  rewrite (read_user_miss w2 user_id).
  - subst w2; cbn. rewrite Hrows; cbn. by rewrite lookup_insert_eq.
  - unfold cache_live; subst w2; cbn. rewrite lookup_insert_eq.
    rewrite bool_decide_eq_false_2; [done|lia].
  - subst w2. unfold store_up in *; cbn. oracle w; by repeat constructor.
Qed.

Lemma read_user_reloads_after_expiry_witness :
  let w := (create_user (mkUser None "Ann" "a@x.com") empty_world).2 in
  let w2 := set_db (λ _, {[1 := mkUser (Some 1) "Bob" "b@x.com"]})
              (tick 300 (read_user 1 w).2) in
  (read_user 1 w2).1 = Ret (PyUser (mkUser (Some 1) "Bob" "b@x.com")).
Proof.
  intros w w2.
  destruct (read_user_reloads_after_expiry w 1 (mkUser (Some 1) "Ann" "a@x.com")
              300 {[1 := mkUser (Some 1) "Bob" "b@x.com"]}
              (mkUser (Some 1) "Bob" "b@x.com"))
    as [H _]; [reflexivity|reflexivity| |lia|reflexivity|exact H].
  unfold store_up; cbn. constructor.
Defined.

(** X7. Whatever its outcome, an update leaves the cache entries and the
    rows of every other id as they were. *)
Theorem update_user_resets_only_own_key w user_id new_user other :
  other ≠ user_id →
  cache (update_user user_id new_user w).2 !! cache_key other
  = cache w !! cache_key other
  ∧ db (update_user user_id new_user w).2 !! other = db w !! other.
Proof.
  intros Hne.
  assert (Hk : cache_key user_id ≠ cache_key other).
  { intros E. apply cache_key_inj in E. congruence. }
  munfold. destruct (bool_decide (lock_key user_id ∈ locks w)); cbn; [done|].
  destruct (faults w) as [|[] [|[] [|[] ?]]]; cbn;
    destruct (db w !! user_id); cbn; rewrite ?lookup_insert_eq; cbn;
    rewrite ?lookup_delete_ne by done; rewrite ?lookup_insert_ne by done; done.
Qed.

Lemma update_user_resets_only_own_key_witness :
  let w0 := (create_user (mkUser None "Bob" "b@x.com")
               (create_user (mkUser None "Ann" "a@x.com") empty_world).2).2 in
  let w := (read_user 2 (read_user 1 w0).2).2 in
  cache (update_user 1 (mkUser None "Ann2" "a@x.com") w).2 !! cache_key 2
  = cache w !! cache_key 2.
Proof.
  intros w0 w.
  destruct (update_user_resets_only_own_key w 1 (mkUser None "Ann2" "a@x.com") 2)
    as [H _]; [lia|exact H].
Defined.

(** X8. Whatever its outcome, a read changes neither the table nor the
    locks, nor the cache entry of any other id. *)
Theorem read_user_frame w user_id other :
  other ≠ user_id →
  db (read_user user_id w).2 = db w
  ∧ locks (read_user user_id w).2 = locks w
  ∧ cache (read_user user_id w).2 !! cache_key other = cache w !! cache_key other.
Proof.
  intros Hne.
  assert (Hk : cache_key user_id ≠ cache_key other).
  { intros E. apply cache_key_inj in E. congruence. }
  munfold; cbn. destruct (cache_live _ _); cbn; [done|].
  destruct (faults w) as [|[] ?]; cbn; try done;
    destruct (db w !! user_id); cbn; rewrite ?lookup_insert_ne by done; done.
Qed.

Lemma read_user_frame_witness :
  let w := (create_user (mkUser None "Ann" "a@x.com") empty_world).2 in
  db (read_user 1 w).2 = db w.
Proof.
  intros w. destruct (read_user_frame w 1 2) as [H _]; [lia|exact H].
Defined.

Lemma update_user_commit_fails_witness :
  let w := set_faults [false; true]
             (read_user 1 (create_user (mkUser None "Ann" "a@x.com") empty_world).2).2 in
  (update_user 1 (mkUser None "Ann2" "a@x.com") w).1 = Raise
  ∧ cache (update_user 1 (mkUser None "Ann2" "a@x.com") w).2 = cache w.
Proof.
  intros w.
  destruct (update_user_commit_fails w 1 (mkUser None "Ann2" "a@x.com")
              (mkUser (Some 1) "Ann" "a@x.com") [])
    as (H1 & _ & _ & H2); [|reflexivity|reflexivity|].
  - cbn. apply not_elem_of_empty.
  - split; [exact H1 | exact H2].
Defined.

(** X10. When the reload after a successful commit raises, the update
    raises with the new row already in the table and the cache entry not
    reset (the lock is released): a following read still returns the old
    cached value. *)
Theorem update_user_refresh_fails_stale_cache w user_id new_user row val expiry fs :
  lock_key user_id ∉ locks w →
  db w !! user_id = Some row →
  faults w = false :: false :: true :: fs →
  cache w !! cache_key user_id = Some (val, expiry) →
  now w < expiry →
  let w' := (update_user user_id new_user w).2 in
  (update_user user_id new_user w).1 = Raise
  ∧ db w' !! user_id = Some (mkUser (id row) (name new_user) (email new_user))
  ∧ cache w' = cache w
  ∧ locks w' = locks w
  ∧ (read_user user_id w').1 = Ret val.
Proof.
  intros Hfree Hrow Hf Hc Ht w'.
  assert (E : update_user user_id new_user w =
    (Raise,
     log (EvLockRelease (lock_key user_id))
       (set_locks (λ ls, ls ∖ {[lock_key user_id]})
          (set_faults fs
            (log (EvDbCommit user_id (mkUser (id row) (name new_user) (email new_user)))
              (set_db (insert user_id (mkUser (id row) (name new_user) (email new_user)))
                (log (EvDbGet user_id)
                   (log (EvLockAcquire (lock_key user_id))
                      (set_locks (λ ls, {[lock_key user_id]} ∪ ls) w))))))))).
  { munfold. rewrite bool_decide_eq_false_2 by done. cbn. rewrite Hrow, Hf; cbn. done. }
  subst w'. rewrite E; cbn [fst snd].
  set (w' := log _ _).
  assert (Hc' : cache w' = cache w) by done.
  assert (Hn' : now w' = now w) by done.
  split; [done|]. split; [subst w'; cbn; by rewrite lookup_insert_eq|].
  split; [done|]. split; [subst w'; cbn; by apply release_after_acquire|].
  clearbody w'.
  assert (Hl : cache_live (log (EvCacheGet (cache_key user_id)) w')
                 (cache_key user_id) = Some val).
  { unfold cache_live; cbn. rewrite Hc', Hc, Hn'. by rewrite bool_decide_eq_true_2. }
  munfold; cbn. by rewrite Hl.
Qed.

Lemma update_user_refresh_fails_stale_cache_witness :
  let w := set_faults [false; false; true]
             (read_user 1 (create_user (mkUser None "Ann" "a@x.com") empty_world).2).2 in
  db (update_user 1 (mkUser None "Ann2" "b@x.com") w).2 !! 1
    = Some (mkUser (Some 1) "Ann2" "b@x.com")
  ∧ (read_user 1 (update_user 1 (mkUser None "Ann2" "b@x.com") w).2).1
    = Ret (PyUser (mkUser (Some 1) "Ann" "a@x.com")).
Proof.
  intros w.
  destruct (update_user_refresh_fails_stale_cache w 1 (mkUser None "Ann2" "b@x.com")
              (mkUser (Some 1) "Ann" "a@x.com")
              (PyUser (mkUser (Some 1) "Ann" "a@x.com")) 300 [])
    as (_ & H1 & _ & _ & H2); [|reflexivity|reflexivity|reflexivity|reflexivity|].
  - cbn. apply not_elem_of_empty.
  - split; [exact H1 | exact H2].
Defined.

(** X11. The key templates keep users apart: different ids have different
    cache keys and different lock names, and no cache key is a lock name. *)
Theorem key_templates_distinct (i j : Z) :
  (i ≠ j → cache_key i ≠ cache_key j)
  ∧ (i ≠ j → lock_key i ≠ lock_key j)
  ∧ cache_key i ≠ lock_key j.
Proof.
  split; [|split].
  - intros Hne E. by apply cache_key_inj in E.
  - intros Hne E. by apply lock_key_inj in E.
  - unfold cache_key, lock_key. cbn. discriminate.
Qed.

Lemma key_templates_distinct_witness :
  cache_key 1 ≠ cache_key 2 ∧ lock_key 1 ≠ lock_key 2.
Proof.
  destruct (key_templates_distinct 1 2) as (H1 & H2 & _).
  split; [apply H1 | apply H2]; lia.
Defined.

(** In a coherent world a read returns what the table holds. *)
Lemma read_user_coherent w user_id :
  coherent w → store_up 1 w →
  (read_user user_id w).1 = Ret (of_option (db w !! user_id)).
Proof.
  intros Hco Hup.
  destruct (cache_live w (cache_key user_id)) as [val|] eqn:Hl.
  - unfold cache_live in Hl.
    destruct (cache w !! cache_key user_id) as [[v e]|] eqn:Hc; [|done].
    case_bool_decide; [|done]. simplify_eq.
    destruct (Hco _ _ _ Hc) as (row & -> & Hrow). rewrite Hrow.
    assert (Hl' : cache_live (log (EvCacheGet (cache_key user_id)) w)
                    (cache_key user_id) = Some (PyUser row)).
    { unfold cache_live; cbn. rewrite Hc. by rewrite bool_decide_eq_true_2. }
    munfold; cbn. by rewrite Hl'.
  - rewrite (read_user_miss w user_id Hl Hup). by destruct (db w !! user_id).
Qed.

Lemma create_user_coherent w user :
  coherent w → coherent (create_user user w).2.
Proof.
  intros Hco i val expiry. munfold; cbn.
  destruct (faults w) as [|[] [|[] ?]]; cbn;
    destruct (db w !! default (fresh_id (db w)) (id user)) eqn:E; cbn;
    rewrite ?lookup_insert_eq; cbn; try apply Hco.
  all: intros Hc; destruct (Hco _ _ _ Hc) as (row & -> & Hrow);
    exists row; split; [done|]; rewrite lookup_insert_ne; [done|];
    intros <-; congruence.
Qed.

Lemma read_user_keeps_coherent w user_id :
  coherent w → coherent (read_user user_id w).2.
Proof.
  intros Hco i val expiry. munfold; cbn.
  destruct (cache_live _ _); cbn; [apply Hco|].
  destruct (faults w) as [|[] ?]; cbn; try apply Hco;
    destruct (db w !! user_id) as [row|] eqn:E; cbn; try apply Hco.
  all: destruct (decide (i = user_id)) as [->|Hne];
    [rewrite lookup_insert_eq; intros [= <- <-]; by eauto
    |rewrite lookup_insert_ne; [apply Hco|]; by intros ?%cache_key_inj].
Qed.

Lemma update_user_coherent w user_id new_user :
  coherent w → faults w = [] → coherent (update_user user_id new_user w).2.
Proof.
  intros Hco Hf i val expiry. munfold.
  destruct (bool_decide (lock_key user_id ∈ locks w)); cbn; [apply Hco|].
  rewrite Hf; cbn. destruct (db w !! user_id) as [row|] eqn:E; cbn;
    [|apply Hco]. rewrite lookup_insert_eq; cbn.
  destruct (decide (i = user_id)) as [->|Hne].
  - by rewrite lookup_delete_eq.
  - rewrite lookup_delete_ne by (by intros ?%cache_key_inj).
    rewrite lookup_insert_ne by done. apply Hco.
Qed.

Lemma reachable_up_coherent w : reachable_up w → coherent w ∧ faults w = [].
Proof.
  induction 1 as [|w user _ [IH Hf]|w i _ [IH Hf]|w i nu _ [IH Hf]|w d _ IH _].
  - split; [|done]. intros i val expiry H. cbn in H. by rewrite lookup_empty in H.
  - split; [by apply create_user_coherent|]. munfold; cbn. rewrite Hf; cbn.
    destruct (db w !! default (fresh_id (db w)) (id user)); cbn;
      rewrite ?lookup_insert_eq; done.
  - split; [by apply read_user_keeps_coherent|]. munfold; cbn.
    destruct (cache_live _ _); cbn; [done|]. rewrite Hf; cbn.
    by destruct (db w !! i).
  - split; [by apply update_user_coherent|]. munfold.
    destruct (bool_decide (lock_key i ∈ locks w)); cbn; [done|].
    rewrite Hf; cbn. destruct (db w !! i); cbn; rewrite ?lookup_insert_eq; done.
  - exact IH.
Qed.

(** X12. As long as requests are handled one at a time and the Data Store
    answers, a read returns exactly what the table holds for the id: the
    row, or [None]. *)
Theorem read_user_returns_table_row w user_id :
  reachable_up w →
  (read_user user_id w).1 = Ret (of_option (db w !! user_id)).
Proof.
  intros Hr. destruct (reachable_up_coherent w Hr) as [Hco Hf].
  apply read_user_coherent; [done|]. unfold store_up. rewrite Hf. constructor.
Qed.

Lemma read_user_returns_table_row_witness :
  let w := (update_user 1 (mkUser None "Ann2" "b@x.com")
              (read_user 1 (create_user (mkUser None "Ann" "a@x.com")
                              empty_world).2).2).2 in
  (read_user 1 w).1 = Ret (of_option (db w !! 1)).
Proof.
  intros w. apply (read_user_returns_table_row w 1).
  repeat constructor.
Defined.

(** X13. In every world reached by requests handled one at a time, with
    Data Store calls failing at will, every row carries the primary key it
    is stored under as its id. *)
Theorem reachable_db_keyed w k row :
  reachable w → db w !! k = Some row → id row = Some k.
Proof. intros Hr. by apply (proj2 (reachable_inv w Hr)). Qed.

Lemma reachable_db_keyed_witness :
  let w := (update_user 1 (mkUser (Some 9) "Ann2" "b@x.com")
              (create_user (mkUser None "Ann" "a@x.com") empty_world).2).2 in
  db w !! 1 = Some (mkUser (Some 1) "Ann2" "b@x.com")
  ∧ id (mkUser (Some 1) "Ann2" "b@x.com") = Some 1.
Proof.
  intros w. split; [reflexivity|].
  apply (reachable_db_keyed w 1); [repeat constructor | reflexivity].
Defined.

Lemma reachable_no_lock_witness :
  locks (update_user 1 (mkUser None "Ann2" "b@x.com")
           (set_faults [false; true]
              (create_user (mkUser None "Ann" "a@x.com") empty_world).2)).2 = ∅.
Proof. apply reachable_no_lock. repeat constructor. Defined.

(** The reader run to its end is the handler. *)
Lemma run_reader_read_user w user_id :
  run_reader 3 (RStart user_id) w
  = (RDone (read_user user_id w).1, (read_user user_id w).2).
Proof.
  unfold run_reader, reader_step. munfold; cbn.
  destruct (cache_live _ _); cbn; [done|].
  destruct (faults w) as [|[] ?]; cbn; try done; by destruct (db w !! user_id).
Qed.

(** X15. A read that overlaps an update can leave the old row in the cache:
    if the read has loaded the row before the update commits and stores it
    after the update has reset the entry, the table holds the new row while
    the cache, and so the next read, gives the old one. *)
Theorem read_overlapping_update_caches_old_row w user_id new_user row :
  cache_live w (cache_key user_id) = None →
  db w !! user_id = Some row →
  lock_key user_id ∉ locks w →
  faults w = [] →
  let user := mkUser (id row) (name new_user) (email new_user) in
  let r1 := run_reader 2 (RStart user_id) w in
  let u := update_user user_id new_user r1.2 in
  let r2 := reader_step r1.1 u.2 in
  u.1 = Ret (PyUser user)
  ∧ r2.1 = RDone (Ret (PyUser row))
  ∧ db r2.2 !! user_id = Some user
  ∧ cache r2.2 !! cache_key user_id = Some (PyUser row, now w + 300)
  ∧ (read_user user_id r2.2).1 = Ret (PyUser row).
Proof.
  intros Hl Hrow Hfree Hf user r1 u r2.
  assert (Hl' : cache_live (log (EvCacheGet (cache_key user_id)) w)
                  (cache_key user_id) = None) by exact Hl.
  assert (E1 : r1 = (RStore user_id (PyUser row),
                     log (EvDbGet user_id) (set_faults []
                       (log (EvCacheGet (cache_key user_id)) w)))).
  { subst r1. unfold run_reader, reader_step. munfold; cbn.
    rewrite Hl'; cbn. rewrite Hf; cbn. by rewrite Hrow. }
  subst u r2. rewrite E1; cbn [fst snd]. set (w1 := log (EvDbGet _) _).
  destruct (update_user_success w1 user_id new_user row)
    as (Hu & Hdb & Hc & _ & Hn & _); [done|done| |].
  { unfold store_up; cbn. constructor. }
  split; [done|].
  set (w2 := (update_user user_id new_user w1).2) in *. clearbody w2.
  unfold reader_step. munfold; cbn. split; [done|].
  rewrite Hdb, Hn. split; [by rewrite lookup_insert_eq|].
  split; [by rewrite lookup_insert_eq|].
  unfold cache_live; cbn. rewrite lookup_insert_eq, ?Hn; cbn.
  rewrite bool_decide_eq_true_2 by lia. done.
Qed.

Lemma read_overlapping_update_caches_old_row_witness :
  let w := (create_user (mkUser None "Ann" "a@x.com") empty_world).2 in
  let r1 := run_reader 2 (RStart 1) w in
  let u := update_user 1 (mkUser None "Ann2" "b@x.com") r1.2 in
  let r2 := reader_step r1.1 u.2 in
  db r2.2 !! 1 = Some (mkUser (Some 1) "Ann2" "b@x.com")
  ∧ (read_user 1 r2.2).1 = Ret (PyUser (mkUser (Some 1) "Ann" "a@x.com")).
Proof.
  intros w r1 u r2.
  destruct (read_overlapping_update_caches_old_row w 1 (mkUser None "Ann2" "b@x.com")
              (mkUser (Some 1) "Ann" "a@x.com"))
    as (_ & _ & H1 & _ & H2); [reflexivity|reflexivity| |reflexivity|].
  - cbn. apply not_elem_of_empty.
  - split; [exact H1 | exact H2].
Defined.

(** X16. When two updates in flight have both answered, neither lock is
    held any more. *)
Theorem concurrent_updates_leave_no_lock w uid_a uid_b a b row_a row_b sched ra rb :
  lock_key uid_a ∉ locks w →
  lock_key uid_b ∉ locks w →
  db w !! uid_a = Some row_a →
  db w !! uid_b = Some row_b →
  faults w = [] →
  let s := run sched (start w uid_a a uid_b b) in
  task_a s = TDone ra →
  task_b s = TDone rb →
  (lock_key uid_a ∉ locks (world s)) ∧ (lock_key uid_b ∉ locks (world s)).
Proof.
  intros Hfa Hfb Hra Hrb Hf s Ea Eb.
  assert (Hsame : uid_a = uid_b → id row_a = id row_b).
  { intros ->. congruence. }
  pose proof (inv_start w uid_a uid_b a b row_a row_b Hfa Hfb Hra Hrb Hf) as H0.
  pose proof (inv_run uid_a uid_b a b row_a row_b sched false _ Hsame H0) as HI.
  fold s in HI. destruct HI as [_ _ _ _ _ Hla Hlb _ _ _ _ _ _].
  rewrite Ea, Eb in *; cbn in *. tauto.
Qed.

Lemma concurrent_updates_leave_no_lock_witness :
  let w := (create_user (mkUser None "Ann" "a@x.com") empty_world).2 in
  let a := mkUser None "Ann2" "a@x.com" in
  let b := mkUser None "Ann3" "b@x.com" in
  let s := run [true; true; false; true; true; true; true] (start w 1 a 1 b) in
  lock_key 1 ∉ locks (world s).
Proof.
  intros w a b s.
  assert (Hfree : lock_key 1 ∉ locks w) by (cbn; apply not_elem_of_empty).
  destruct (concurrent_updates_leave_no_lock w 1 1 a b
              (mkUser (Some 1) "Ann" "a@x.com") (mkUser (Some 1) "Ann" "a@x.com")
              [true; true; false; true; true; true; true]
              (ok (mkUser (Some 1) "Ann" "a@x.com") a) busy
              Hfree Hfree eq_refl eq_refl eq_refl eq_refl eq_refl) as [H _].
  exact H.
Defined.
